(** * Text-to-speech front end: container encoder and playback transport

    A shallow embedding of [src/index.tsx]: the helper functions [decode]
    and [pcmToWavBlob], the audio pipeline and the state changes of
    [handleGenerateSpeech], the playback handlers of the [App] component
    ([stopPlayback], [handlePlayStop], [handleRateChange],
    [handlePitchChange], the [onended] closure), the effect run on mount
    with its cleanup, and the condition under which the playback block is
    rendered.

    Conventions.
    - A byte is a [Z] in [0, 256); an [ArrayBuffer] is a [list Z].
    - A JavaScript number that the code only uses as an integer
      ([sampleRate], [numChannels], a sample, [pitch]) is a [Z]; the
      conversions [ToUint32], [ToUint16], [ToInt16] that [DataView] applies
      are written out with bit operations.
    - A product of two numbers is a product of doubles: the nearest
      double to the exact product ([mulNumber]).
    - A thrown exception is a value of [thrown]; code that can throw returns
      a [result]. *)

From Stdlib Require Import ZArith Lia String Ascii QArith.
From stdpp Require Import base tactics option list.

Local Open Scope Z_scope.

(** ** Exceptions *)

(** What a [throw] can carry: the error objects this code meets, and
    [NonError] for any thrown value that is not an instance of [Error]. *)
Inductive thrown : Type :=
  | RangeError (message : string)
  | Error (message : string)
  | DOMException (name message : string)
  | NonError.

Inductive result (A : Type) : Type :=
  | Ok (a : A)
  | Throw (e : thrown).
Arguments Ok {A} a.
Arguments Throw {A} e.

#[global] Instance result_ret : MRet result := fun A a => Ok a.
#[global] Instance result_bind : MBind result := fun A B f r =>
  match r with
  | Ok a => f a
  | Throw e => Throw e
  end.

Definition is_Ok {A} (r : result A) : Prop := ∃ a, r = Ok a.

(** ** Products of numbers

    A JavaScript number is an IEEE 754 double. The numbers this code
    multiplies are integers, so a product is the double nearest to the
    exact integer product, ties going to the even significand, and an
    infinity when that is beyond the largest double. A number is an
    [option Z] here, [None] standing for a value that is not finite. *)

(** The double nearest to an integer: 53 significant bits. *)
Definition roundDouble (v : Z) : option Z :=
  let m := Z.abs v in
  let e := Z.log2 m - 52 in
  if e <=? 0 then Some v
  else
    let q := Z.shiftr m e in
    let r := Z.land m (Z.ones e) in
    let half := Z.shiftl 1 (e - 1) in
    let q' := if (half <? r) || ((r =? half) && Z.odd q) then q + 1 else q in
    let m' := Z.shiftl q' e in
    if 2 ^ 1024 <=? m' then None else Some (Z.sgn v * m').

Definition mulNumber (x y : option Z) : option Z :=
  match x, y with
  | Some a, Some b => roundDouble (a * b)
  | _, _ => None
  end.

Notation "x × y" := (mulNumber x y) (at level 40, left associativity).

(** The integer an integer conversion starts from: a number that is not
    finite converts as 0. *)
Definition integerOf (x : option Z) : Z :=
  match x with
  | Some v => v
  | None => 0
  end.

(** ** Integer conversions of [DataView] *)

(** Byte [k] (counted from the least significant one) of the two's
    complement representation of [v]. *)
Definition byteAt (v : Z) (k : nat) : Z :=
  Z.land (Z.shiftr v (8 * Z.of_nat k)) 255.

Definition ToUint8 (v : Z) : Z := Z.land v 255.
Definition ToUint16 (v : Z) : Z := Z.land v 65535.
Definition ToUint32 (v : Z) : Z := Z.land v 4294967295.
Definition ToInt16 (v : Z) : Z :=
  let m := ToUint16 v in if 32768 <=? m then m - 65536 else m.

(** The [w] bytes of a value, least significant first. *)
Definition rawBytes (w : nat) (v : Z) : list Z := map (byteAt v) (seq 0 w).

Definition ordered (littleEndian : bool) (bs : list Z) : list Z :=
  if littleEndian then bs else rev bs.

(** ** [ArrayBuffer] and [DataView] *)

Definition ArrayBuffer (byteLength : nat) : list Z := replicate byteLength 0.

Definition outOfBounds : thrown :=
  RangeError "Offset is outside the bounds of the DataView".

(** Every [DataView] setter stores a run of bytes at [byteOffset], and
    throws a [RangeError] when the run does not fit in the view. *)
Definition setBytes (view : list Z) (byteOffset : nat) (bs : list Z)
  : result (list Z) :=
  if (byteOffset + length bs <=? length view)%nat
  then Ok (take byteOffset view ++ bs ++ drop (byteOffset + length bs) view)
  else Throw outOfBounds.

Definition setUint8 (view : list Z) (byteOffset : nat) (value : Z) :=
  setBytes view byteOffset (rawBytes 1 (ToUint8 value)).
Definition setUint16 (view : list Z) (byteOffset : nat) (value : Z)
    (littleEndian : bool) :=
  setBytes view byteOffset (ordered littleEndian (rawBytes 2 (ToUint16 value))).
Definition setUint32 (view : list Z) (byteOffset : nat) (value : Z)
    (littleEndian : bool) :=
  setBytes view byteOffset (ordered littleEndian (rawBytes 4 (ToUint32 value))).
Definition setInt16 (view : list Z) (byteOffset : nat) (value : Z)
    (littleEndian : bool) :=
  setBytes view byteOffset (ordered littleEndian (rawBytes 2 (ToInt16 value))).

Definition getBytes (view : list Z) (byteOffset w : nat) : result (list Z) :=
  if (byteOffset + w <=? length view)%nat
  then Ok (take w (drop byteOffset view))
  else Throw outOfBounds.

(** The unsigned value of a run of bytes, least significant first. *)
Fixpoint fromBytes (bs : list Z) : Z :=
  match bs with
  | [] => 0
  | b :: rest => Z.lor b (Z.shiftl (fromBytes rest) 8)
  end.

Definition getUint16 (view : list Z) (byteOffset : nat) (littleEndian : bool) :=
  bs ← getBytes view byteOffset 2; Ok (fromBytes (ordered littleEndian bs)).
Definition getUint32 (view : list Z) (byteOffset : nat) (littleEndian : bool) :=
  bs ← getBytes view byteOffset 4; Ok (fromBytes (ordered littleEndian bs)).
Definition getInt16 (view : list Z) (byteOffset : nat) (littleEndian : bool) :=
  bs ← getBytes view byteOffset 2;
  Ok (ToInt16 (fromBytes (ordered littleEndian bs))).

Definition charCode (c : ascii) : Z := Z.of_N (N_of_ascii c).

(** ** [pcmToWavBlob] *)

Module Wav.

Record Blob : Type := { blobBytes : list Z; blobType : string }.

(** The inner helper [writeString]: one [setUint8] per character. *)
Fixpoint writeString (view : list Z) (offset : nat) (str : string)
  : result (list Z) :=
  match str with
  | EmptyString => Ok view
  | String c rest =>
      view' ← setUint8 view offset (charCode c);
      writeString view' (S offset) rest
  end.

(** The final loop, [for (i = 0; i < pcmData.length; i++)]: [rest] is the
    part of [pcmData] from index [i] on. *)
Fixpoint writeSamples (view : list Z) (headerSize i : nat) (rest : list Z)
  : result (list Z) :=
  match rest with
  | [] => Ok view
  | sample :: rest' =>
      view' ← setInt16 view (headerSize + i * 2) sample true;
      writeSamples view' headerSize (S i) rest'
  end.

Definition pcmToWavBlob (pcmData : list Z) (sampleRate numChannels : Z)
  : result Blob :=
  let headerSize := 44%nat in
  let bitsPerSample := 16 in
  let bytesPerSample := bitsPerSample / 8 in
  let dataSize := (length pcmData * Z.to_nat bytesPerSample)%nat in
  let fileSize := (headerSize + dataSize)%nat in
  let view := ArrayBuffer fileSize in
  view ← writeString view 0 "RIFF";
  view ← setUint32 view 4 (Z.of_nat fileSize - 8) true;
  view ← writeString view 8 "WAVE";
  view ← writeString view 12 "fmt ";
  view ← setUint32 view 16 16 true;
  view ← setUint16 view 20 1 true;
  view ← setUint16 view 22 numChannels true;
  view ← setUint32 view 24 sampleRate true;
  view ← setUint32 view 28
           (integerOf (Some sampleRate × Some numChannels × Some bytesPerSample))
           true;
  view ← setUint16 view 32
           (integerOf (Some numChannels × Some bytesPerSample)) true;
  view ← setUint16 view 34 bitsPerSample true;
  view ← writeString view 36 "data";
  view ← setUint32 view 40 (Z.of_nat dataSize) true;
  view ← writeSamples view headerSize 0 pcmData;
  Ok {| blobBytes := view; blobType := "audio/wav" |}.

End Wav.

Import Wav.

(** The bytes of a string literal, as [writeString] stores them. *)
Definition codes (s : string) : list Z :=
  map charCode (list_ascii_of_string s).

(** The two products of the header, as the source computes them with
    [bytesPerSample] equal to 2. *)
Definition byteRate (sampleRate numChannels : Z) : Z :=
  integerOf (Some sampleRate × Some numChannels × Some 2).

Definition blockAlign (numChannels : Z) : Z :=
  integerOf (Some numChannels × Some 2).

(** The 44 header bytes in closed form, field after field in the order of
    the source ([n] is [pcmData.length]); [pcmToWavBlob_layout] shows that
    the sequence of [DataView] writes produces exactly these. *)
Definition headerBytes (n : nat) (sampleRate numChannels : Z) : list Z :=
  codes "RIFF" ++ rawBytes 4 (ToUint32 (Z.of_nat (44 + n * 2) - 8)) ++
  codes "WAVE" ++
  codes "fmt " ++ rawBytes 4 (ToUint32 16) ++ rawBytes 2 (ToUint16 1) ++
  rawBytes 2 (ToUint16 numChannels) ++ rawBytes 4 (ToUint32 sampleRate) ++
  rawBytes 4 (ToUint32 (byteRate sampleRate numChannels)) ++
  rawBytes 2 (ToUint16 (blockAlign numChannels)) ++ rawBytes 2 (ToUint16 16) ++
  codes "data" ++ rawBytes 4 (ToUint32 (Z.of_nat (n * 2))).

(** The payload in closed form: two bytes per sample, in order. *)
Definition payloadBytes (pcmData : list Z) : list Z :=
  concat (map (λ sample, rawBytes 2 (ToInt16 sample)) pcmData).

(** ** Reading a header back

    The source has no reader for the container. This one follows the header
    layout of the specification: channel count at bytes 22-23, sample rate
    at 24-27, payload length at 40-43, two bytes per sample. *)
Record Format : Type :=
  { fmtSampleRate : Z; fmtChannels : Z; fmtSampleCount : Z }.

Definition readHeader (file : list Z) : result Format :=
  channels ← getUint16 file 22 true;
  sampleRate ← getUint32 file 24 true;
  dataSize ← getUint32 file 40 true;
  Ok {| fmtSampleRate := sampleRate; fmtChannels := channels;
        fmtSampleCount := dataSize / 2 |}.

(** ** [decode] and the typed arrays *)

(** The platform objects the component is handed: the base64 decoder
    [atob] (it returns a binary string, one character per byte), the audio
    decoder of the [AudioContext], and the opaque [AudioBuffer] it yields. *)
Class Platform : Type := {
  AudioBuffer : Type;
  atob : string → result string;
  decodeAudioData : list Z → result AudioBuffer;
}.

(** [new Uint8Array(len)] followed by [bytes[i] = v]: an element store
    converts with [ToUint8]; out of range it does nothing. *)
Definition Uint8Array (len : nat) : list Z := replicate len 0.
Definition storeUint8 (bytes : list Z) (i : nat) (v : Z) : list Z :=
  <[i := ToUint8 v]> bytes.

(** The loop of [decode]: [rest] is the part of [binaryString] from index
    [i] on. *)
Fixpoint decodeLoop (bytes : list Z) (i : nat) (rest : string) : list Z :=
  match rest with
  | EmptyString => bytes
  | String c rest' => decodeLoop (storeUint8 bytes i (charCode c)) (S i) rest'
  end.

Definition decode `{Platform} (base64 : string) : result (list Z) :=
  binaryString ← atob base64;
  let len := String.length binaryString in
  let bytes := Uint8Array len in
  Ok (decodeLoop bytes 0 binaryString).

Definition notAMultiple : thrown :=
  RangeError "byte length of Int16Array should be a multiple of 2".

(** The elements an [Int16Array] sees in a buffer (little-endian host). *)
Fixpoint int16Elements (buffer : list Z) : list Z :=
  match buffer with
  | lo :: hi :: rest => ToInt16 (fromBytes [lo; hi]) :: int16Elements rest
  | _ => []
  end.

(** [new Int16Array(buffer)]: a [RangeError] unless the byte length is a
    multiple of the element size. *)
Definition Int16Array (buffer : list Z) : result (list Z) :=
  if (length buffer `mod` 2 =? 0)%nat
  then Ok (int16Elements buffer)
  else Throw notAMultiple.

(** ** The audio pipeline of [handleGenerateSpeech] *)

Definition noAudioData : thrown :=
  Error "No audio data received from the API.".

(** Lines 100-104 and 112-114: from the response's [base64Audio] to the
    bytes handed to [decodeAudioData]. [None] is [undefined]; [undefined]
    and the empty string are the falsy values of [if (base64Audio)]. *)
Definition wavOfResponse `{Platform} (base64Audio : option string)
  : result (list Z) :=
  match base64Audio with
  | None | Some EmptyString => Throw noAudioData
  | Some base64 =>
      decodedBytes ← decode base64;
      pcmData ← Int16Array decodedBytes;
      wavBlob ← pcmToWavBlob pcmData 24000 1;
      Ok (blobBytes wavBlob)
  end.

(** The [catch] clause: [e instanceof Error ? e.message : ...]. *)
Definition errorMessage (e : thrown) : string :=
  match e with
  | RangeError m | Error m | DOMException _ m => m
  | NonError => "An unknown error occurred."
  end.

Definition failureText (e : thrown) : string :=
  ("Failed to generate speech. " ++ errorMessage e)%string.

(** ** The [App] component

    React state is read and written in place: a handler sees the values of
    the latest render, and the component re-renders between two events. *)

Inductive ContextState : Type := suspended | running | closed.

(** The one closure the source ever assigns to [onended]. *)
Inductive Closure : Type := PlaybackEnded.

(** An [AudioBufferSourceNode]. [endedFired] is the platform's record that
    the node's [ended] event has been dispatched (it is dispatched at most
    once per node); [notified] counts the runs of the node's [onended]
    handler and exists only to state properties. *)
Record SourceNode `{Platform} : Type := {
  buffer : option AudioBuffer;
  playbackRate : Q;
  detune : Z;
  connected : bool;
  started : bool;
  stopped : bool;
  onended : option Closure;
  endedFired : bool;
  notified : nat;
}.

Record World `{Platform} : Type := {
  text : list Z;
  loading : bool;
  error : string;
  selectedVoice : string;
  rate : Q;
  pitch : Z;
  audioBuffer : option AudioBuffer;
  isPlaying : bool;
  audioContextRef : option ContextState;
  sourceNodeRef : option nat;
  heap : list SourceNode;
}.

Local Open Scope string_scope.
Definition VOICES : list (string * string) :=
  [("Ares", "Ares (Male)"); ("Atlas", "Atlas (Male)");
   ("Calypso", "Calypso (Female)"); ("Charon", "Charon (Male)");
   ("Echo", "Echo (Female)"); ("Eos", "Eos (Female)");
   ("Fenrir", "Fenrir (Male)"); ("Hades", "Hades (Male)");
   ("Helios", "Helios (Male)"); ("Hermes", "Hermes (Male)");
   ("Kore", "Kore (Female)"); ("Luna", "Luna (Female)");
   ("Nyx", "Nyx (Female)"); ("Orion", "Orion (Male)");
   ("Persephone", "Persephone (Female)");
   ("Prometheus", "Prometheus (Male)"); ("Puck", "Puck (Male)");
   ("Styx", "Styx (Female)"); ("Tethys", "Tethys (Female)");
   ("Titan", "Titan (Male)"); ("Zephyr", "Zephyr (Female)")].
Local Close Scope string_scope.

Section App.
Context `{Platform}.

(** *** State writes *)

Definition setText (v : list Z) (w : World) : World :=
  {| text := v; loading := loading w; error := error w;
     selectedVoice := selectedVoice w; rate := rate w; pitch := pitch w;
     audioBuffer := audioBuffer w; isPlaying := isPlaying w;
     audioContextRef := audioContextRef w; sourceNodeRef := sourceNodeRef w;
     heap := heap w |}.
Definition setLoading (v : bool) (w : World) : World :=
  {| text := text w; loading := v; error := error w;
     selectedVoice := selectedVoice w; rate := rate w; pitch := pitch w;
     audioBuffer := audioBuffer w; isPlaying := isPlaying w;
     audioContextRef := audioContextRef w; sourceNodeRef := sourceNodeRef w;
     heap := heap w |}.
Definition setError (v : string) (w : World) : World :=
  {| text := text w; loading := loading w; error := v;
     selectedVoice := selectedVoice w; rate := rate w; pitch := pitch w;
     audioBuffer := audioBuffer w; isPlaying := isPlaying w;
     audioContextRef := audioContextRef w; sourceNodeRef := sourceNodeRef w;
     heap := heap w |}.
Definition setSelectedVoice (v : string) (w : World) : World :=
  {| text := text w; loading := loading w; error := error w;
     selectedVoice := v; rate := rate w; pitch := pitch w;
     audioBuffer := audioBuffer w; isPlaying := isPlaying w;
     audioContextRef := audioContextRef w; sourceNodeRef := sourceNodeRef w;
     heap := heap w |}.
Definition setRate (v : Q) (w : World) : World :=
  {| text := text w; loading := loading w; error := error w;
     selectedVoice := selectedVoice w; rate := v; pitch := pitch w;
     audioBuffer := audioBuffer w; isPlaying := isPlaying w;
     audioContextRef := audioContextRef w; sourceNodeRef := sourceNodeRef w;
     heap := heap w |}.
Definition setPitch (v : Z) (w : World) : World :=
  {| text := text w; loading := loading w; error := error w;
     selectedVoice := selectedVoice w; rate := rate w; pitch := v;
     audioBuffer := audioBuffer w; isPlaying := isPlaying w;
     audioContextRef := audioContextRef w; sourceNodeRef := sourceNodeRef w;
     heap := heap w |}.
Definition setAudioBuffer (v : option AudioBuffer) (w : World) : World :=
  {| text := text w; loading := loading w; error := error w;
     selectedVoice := selectedVoice w; rate := rate w; pitch := pitch w;
     audioBuffer := v; isPlaying := isPlaying w;
     audioContextRef := audioContextRef w; sourceNodeRef := sourceNodeRef w;
     heap := heap w |}.
Definition setIsPlaying (v : bool) (w : World) : World :=
  {| text := text w; loading := loading w; error := error w;
     selectedVoice := selectedVoice w; rate := rate w; pitch := pitch w;
     audioBuffer := audioBuffer w; isPlaying := v;
     audioContextRef := audioContextRef w; sourceNodeRef := sourceNodeRef w;
     heap := heap w |}.
Definition setAudioContextRef (v : option ContextState) (w : World) : World :=
  {| text := text w; loading := loading w; error := error w;
     selectedVoice := selectedVoice w; rate := rate w; pitch := pitch w;
     audioBuffer := audioBuffer w; isPlaying := isPlaying w;
     audioContextRef := v; sourceNodeRef := sourceNodeRef w;
     heap := heap w |}.
Definition setSourceNodeRef (v : option nat) (w : World) : World :=
  {| text := text w; loading := loading w; error := error w;
     selectedVoice := selectedVoice w; rate := rate w; pitch := pitch w;
     audioBuffer := audioBuffer w; isPlaying := isPlaying w;
     audioContextRef := audioContextRef w; sourceNodeRef := v;
     heap := heap w |}.
Definition setHeap (v : list SourceNode) (w : World) : World :=
  {| text := text w; loading := loading w; error := error w;
     selectedVoice := selectedVoice w; rate := rate w; pitch := pitch w;
     audioBuffer := audioBuffer w; isPlaying := isPlaying w;
     audioContextRef := audioContextRef w; sourceNodeRef := sourceNodeRef w;
     heap := v |}.

(** *** Source nodes on the heap

    A node is a heap object; [sourceNodeRef.current] and the local variable
    [source] hold its address. *)

Definition newSourceNode : SourceNode :=
  {| buffer := None; playbackRate := 1; detune := 0; connected := false;
     started := false; stopped := false; onended := None;
     endedFired := false; notified := 0 |}.

Definition setBuffer (v : option AudioBuffer) (nd : SourceNode) : SourceNode :=
  {| buffer := v; playbackRate := playbackRate nd; detune := detune nd;
     connected := connected nd; started := started nd; stopped := stopped nd;
     onended := onended nd; endedFired := endedFired nd;
     notified := notified nd |}.
Definition setPlaybackRate (v : Q) (nd : SourceNode) : SourceNode :=
  {| buffer := buffer nd; playbackRate := v; detune := detune nd;
     connected := connected nd; started := started nd; stopped := stopped nd;
     onended := onended nd; endedFired := endedFired nd;
     notified := notified nd |}.
Definition setDetune (v : Z) (nd : SourceNode) : SourceNode :=
  {| buffer := buffer nd; playbackRate := playbackRate nd; detune := v;
     connected := connected nd; started := started nd; stopped := stopped nd;
     onended := onended nd; endedFired := endedFired nd;
     notified := notified nd |}.
Definition setConnected (v : bool) (nd : SourceNode) : SourceNode :=
  {| buffer := buffer nd; playbackRate := playbackRate nd; detune := detune nd;
     connected := v; started := started nd; stopped := stopped nd;
     onended := onended nd; endedFired := endedFired nd;
     notified := notified nd |}.
Definition setStarted (v : bool) (nd : SourceNode) : SourceNode :=
  {| buffer := buffer nd; playbackRate := playbackRate nd; detune := detune nd;
     connected := connected nd; started := v; stopped := stopped nd;
     onended := onended nd; endedFired := endedFired nd;
     notified := notified nd |}.
Definition setStopped (v : bool) (nd : SourceNode) : SourceNode :=
  {| buffer := buffer nd; playbackRate := playbackRate nd; detune := detune nd;
     connected := connected nd; started := started nd; stopped := v;
     onended := onended nd; endedFired := endedFired nd;
     notified := notified nd |}.
Definition setOnended (v : option Closure) (nd : SourceNode) : SourceNode :=
  {| buffer := buffer nd; playbackRate := playbackRate nd; detune := detune nd;
     connected := connected nd; started := started nd; stopped := stopped nd;
     onended := v; endedFired := endedFired nd; notified := notified nd |}.
Definition setEndedFired (v : bool) (nd : SourceNode) : SourceNode :=
  {| buffer := buffer nd; playbackRate := playbackRate nd; detune := detune nd;
     connected := connected nd; started := started nd; stopped := stopped nd;
     onended := onended nd; endedFired := v; notified := notified nd |}.
Definition setNotified (v : nat) (nd : SourceNode) : SourceNode :=
  {| buffer := buffer nd; playbackRate := playbackRate nd; detune := detune nd;
     connected := connected nd; started := started nd; stopped := stopped nd;
     onended := onended nd; endedFired := endedFired nd; notified := v |}.

Definition updateNode (a : nat) (f : SourceNode → SourceNode) (w : World)
  : World :=
  setHeap (alter f a (heap w)) w.

Definition invalidState (message : string) : thrown :=
  DOMException "InvalidStateError" message.

(** [node.start(0)]: an [InvalidStateError] when already started. The
    [None] branch stands for an address outside the heap, which no
    reference of the program holds. *)
Definition nodeStart (a : nat) (w : World) : result World :=
  match heap w !! a with
  | Some nd =>
      if started nd then Throw (invalidState "cannot call start more than once")
      else Ok (updateNode a (setStarted true) w)
  | None => Throw NonError
  end.

(** [node.stop()]: an [InvalidStateError] when never started. *)
Definition nodeStop (a : nat) (w : World) : result World :=
  match heap w !! a with
  | Some nd =>
      if started nd then Ok (updateNode a (setStopped true) w)
      else Throw (invalidState "cannot call stop without calling start first")
  | None => Throw NonError
  end.

(** A node produces output from [start] until [stop] or the end of its
    buffer, which the platform reports by the [ended] event. *)
Definition rendering (nd : SourceNode) : bool :=
  started nd && negb (stopped nd) && negb (endedFired nd).

(** *** Handlers *)

Definition stopPlayback (w : World) : result World :=
  match sourceNodeRef w with
  | Some a =>
      let w := updateNode a (setOnended None) w in
      w ← nodeStop a w;
      let w := setSourceNodeRef None w in
      Ok (setIsPlaying false w)
  | None => Ok w
  end.

(** The closure assigned to [source.onended]. *)
Definition runClosure (c : Closure) (w : World) : World :=
  match c with
  | PlaybackEnded => setSourceNodeRef None (setIsPlaying false w)
  end.

(** [audioContext.resume()] is taken to succeed at once. *)
Definition handlePlayStop (w : World) : result World :=
  match audioContextRef w with
  | None => Ok w
  | Some audioContext =>
      let w :=
        match audioContext with
        | suspended => setAudioContextRef (Some running) w
        | _ => w
        end in
      if isPlaying w then stopPlayback w
      else
        match audioBuffer w with
        | Some b =>
            let source := length (heap w) in
            let w := setHeap (heap w ++ [newSourceNode]) w in
            let w := updateNode source (setBuffer (Some b)) w in
            let w := updateNode source (setPlaybackRate (rate w)) w in
            let w := updateNode source (setDetune (pitch w * 100)) w in
            let w := updateNode source (setConnected true) w in
            w ← nodeStart source w;
            let w := updateNode source (setOnended (Some PlaybackEnded)) w in
            let w := setSourceNodeRef (Some source) w in
            Ok (setIsPlaying true w)
        | None => Ok w
        end
  end.

(** The argument is the parsed slider value, [parseFloat(e.target.value)]. *)
Definition handleRateChange (value : Q) (w : World) : result World :=
  w ← stopPlayback w;
  Ok (setRate value w).

(** The argument is [parseInt(e.target.value, 10)]. *)
Definition handlePitchChange (value : Z) (w : World) : result World :=
  w ← stopPlayback w;
  Ok (setPitch value w).

(** *** [text.trim()]

    [text] is a sequence of UTF-16 code units. *)
Definition isWhiteSpace (c : Z) : bool :=
  bool_decide (c ∈ [9; 10; 11; 12; 13; 32; 160; 5760; 8232; 8233; 8239; 8287;
                    12288; 65279])
  || ((8192 <=? c) && (c <=? 8202)).

Fixpoint trimStart (s : list Z) : list Z :=
  match s with
  | c :: rest => if isWhiteSpace c then trimStart rest else s
  | [] => []
  end.

Definition trim (s : list Z) : list Z :=
  reverse (trimStart (reverse (trimStart s))).

Definition pleaseEnterText : string :=
  "Please enter some text to generate speech.".

(** [handleGenerateSpeech] up to its first [await]. *)
Definition handleGenerateSpeech (w : World) : result World :=
  match trim (text w) with
  | [] => Ok (setError pleaseEnterText w)
  | _ =>
      let w := setLoading true w in
      let w := setError EmptyString w in
      w ← stopPlayback w;
      Ok (setAudioBuffer None w)
  end.

(** The rest of [handleGenerateSpeech], run when the request settles:
    [response] is [Throw e] when the request was rejected, and otherwise
    the [base64Audio] that the optional chain extracts from the answer. *)
Definition handleGenerateSpeech_settle (response : result (option string))
    (w : World) : World :=
  let attempt : result AudioBuffer :=
    base64Audio ← response;
    arrayBuffer ← wavOfResponse base64Audio;
    match audioContextRef w with
    | Some _ => decodeAudioData arrayBuffer
    | None => Throw (Error "AudioContext not available.")
    end in
  let w :=
    match attempt with
    | Ok decodedAudioBuffer => setAudioBuffer (Some decodedAudioBuffer) w
    | Throw e => setError (failureText e) w
    end in
  setLoading false w.

(** *** The platform's [ended] event

    Dispatched at most once per started node, after the node reached the
    end of its buffer or after [stop()]; the handler it runs is the value
    of [onended] at that moment. *)
Definition dispatchEnded (a : nat) (w : World) : World :=
  match heap w !! a with
  | Some nd =>
      if started nd && negb (endedFired nd) then
        let w := updateNode a (setEndedFired true) w in
        match onended nd with
        | Some c => runClosure c (updateNode a (setNotified (S (notified nd))) w)
        | None => w
        end
      else w
  | None => w
  end.

(** *** Mounting and unmounting *)

Definition firstVoice : string :=
  match VOICES with
  | (name, _) :: _ => name
  | [] => EmptyString
  end.

Definition initialWorld : World :=
  {| text := []; loading := false; error := EmptyString; selectedVoice := firstVoice;
     rate := 1; pitch := 0; audioBuffer := None; isPlaying := false;
     audioContextRef := None; sourceNodeRef := None; heap := [] |}.

(** The effect run on mount; a new context is [running] when the platform
    allows audio before a user gesture and [suspended] otherwise. *)
Definition mount (autoplay : bool) (w : World) : World :=
  match audioContextRef w with
  | None => setAudioContextRef (Some (if autoplay then running else suspended)) w
  | Some _ => w
  end.

(** The cleanup the effect returns, run on unmount. *)
Definition cleanup (w : World) : result World :=
  w ← match sourceNodeRef w with
      | Some a => nodeStop a w
      | None => Ok w
      end;
  Ok match audioContextRef w with
     | Some closed | None => w
     | Some _ => setAudioContextRef (Some closed) w
     end.

(** *** Events of a mounted component *)

Inductive Event : Type :=
  | Mount (autoplay : bool)
  | TextInput (value : list Z)
  | VoiceInput (value : string)
  | RateInput (value : Q)
  | PitchInput (value : Z)
  | GenerateClick
  | Settled (response : result (option string))
  | PlayStopClick
  | EndedEvent (a : nat).

Definition step (ev : Event) (w : World) : result World :=
  match ev with
  | Mount autoplay => Ok (mount autoplay w)
  | TextInput value => Ok (setText value w)
  | VoiceInput value => Ok (setSelectedVoice value w)
  | RateInput value => handleRateChange value w
  | PitchInput value => handlePitchChange value w
  | GenerateClick => handleGenerateSpeech w
  | Settled response => Ok (handleGenerateSpeech_settle response w)
  | PlayStopClick => handlePlayStop w
  | EndedEvent a => Ok (dispatchEnded a w)
  end.

Fixpoint run (evs : list Event) (w : World) : result World :=
  match evs with
  | [] => Ok w
  | ev :: rest => w' ← step ev w; run rest w'
  end.

Definition reachable (w : World) : Prop :=
  ∃ evs, run evs initialWorld = Ok w.

(** *** Derived forms

    The combined field updates that the handlers apply to a node, used to
    state what a handler returns. *)

(** [stopPlayback] on the current node: handler detached, then stopped. *)
Definition stopNode (nd : SourceNode) : SourceNode :=
  setStopped true (setOnended None nd).

(** The node [handlePlayStop] has built when it stores the reference. *)
Definition playNode (b : AudioBuffer) (r : Q) (p : Z) : SourceNode :=
  {| buffer := Some b; playbackRate := r; detune := p * 100;
     connected := true; started := true; stopped := false;
     onended := Some PlaybackEnded; endedFired := false; notified := 0 |}.

(** A node whose [ended] event ran its handler. *)
Definition endNode (nd : SourceNode) : SourceNode :=
  setNotified (S (notified nd)) (setEndedFired true nd).

(** The world after the [resume()] call at the head of [handlePlayStop]. *)
Definition resumed (c : ContextState) (w : World) : World :=
  match c with
  | suspended => setAudioContextRef (Some running) w
  | _ => w
  end.

(** [nd'] is [nd] up to the platform's [endedFired] mark. *)
Definition settled (nd nd' : SourceNode) : Prop :=
  nd' = nd ∨ nd' = setEndedFired true nd.

(** What a parameter change leaves behind: nothing plays, nothing renders,
    no node was notified or had its parameters touched, and the node that
    was current is stopped with its handler detached. *)
Definition sessionEnded (w w' : World) : Prop :=
  isPlaying w' = false ∧ sourceNodeRef w' = None ∧
  audioBuffer w' = audioBuffer w ∧ audioContextRef w' = audioContextRef w ∧
  (∀ a nd, heap w' !! a = Some nd → rendering nd = false) ∧
  (∀ a nd, heap w !! a = Some nd →
     ∃ nd', heap w' !! a = Some nd' ∧ notified nd' = notified nd ∧
       playbackRate nd' = playbackRate nd ∧ detune nd' = detune nd ∧
       (sourceNodeRef w = Some a → onended nd' = None ∧ stopped nd' = true)).

(** *** The life of a source node

    A started node is in one of three conditions: it is the current
    session, it has completed and notified the component, or it was
    stopped by [stopPlayback] with its handler detached. *)
Definition currentNode (nd : SourceNode) : Prop :=
  started nd = true ∧ stopped nd = false ∧ endedFired nd = false ∧
  onended nd = Some PlaybackEnded ∧ notified nd = 0%nat.

Definition finishedNode (nd : SourceNode) : Prop :=
  started nd = true ∧ stopped nd = false ∧ endedFired nd = true ∧
  notified nd = 1%nat.

Definition stoppedNode (nd : SourceNode) : Prop :=
  started nd = true ∧ stopped nd = true ∧ onended nd = None ∧
  notified nd = 0%nat.

(** The invariant of the component: [isPlaying] mirrors the reference, the
    reference points at the one current node, every other node is finished
    or stopped. *)
Definition Inv (w : World) : Prop :=
  (isPlaying w = true ↔ is_Some (sourceNodeRef w)) ∧
  (∀ a, sourceNodeRef w = Some a → is_Some (heap w !! a)) ∧
  (∀ a nd, heap w !! a = Some nd →
     if bool_decide (sourceNodeRef w = Some a) then currentNode nd
     else finishedNode nd ∨ stoppedNode nd).

(** *** What the component renders

    The playback block of the JSX, [{audioBuffer && !loading && (...)}],
    and the label of its button. *)
Definition playerVisible (w : World) : bool :=
  match audioBuffer w with
  | Some _ => negb (loading w)
  | None => false
  end.

Definition playButtonLabel (w : World) : string :=
  if isPlaying w then "Stop" else "Play".

(** While a request is in flight there is no buffer, and whenever a session
    plays there is one. *)
Definition bufferInv (w : World) : Prop :=
  (loading w = true → audioBuffer w = None) ∧
  (isPlaying w = true → is_Some (audioBuffer w)).

(** Two nodes that sound the same: same buffer, rate and detune, and the
    second was notified at least as often. *)
Definition sameSound (nd nd' : SourceNode) : Prop :=
  buffer nd' = buffer nd ∧ playbackRate nd' = playbackRate nd ∧
  detune nd' = detune nd ∧ (notified nd ≤ notified nd')%nat.

Definition blank (s : list Z) : Prop := Forall (λ c, isWhiteSpace c = true) s.

End App.

(** ** A platform to run the component on

    [atob] follows the forgiving base64 decoding of the HTML standard; the
    container bytes stand for the [AudioBuffer] decoded from them. *)

Definition invalidCharacter : thrown :=
  DOMException "InvalidCharacterError"
    "The string to be decoded is not correctly encoded.".

Definition isAsciiWhitespace (c : ascii) : bool :=
  bool_decide (charCode c ∈ [9; 10; 12; 13; 32]).

(** The value of a base64 digit. *)
Definition sextet (c : ascii) : option Z :=
  let n := charCode c in
  if (65 <=? n) && (n <=? 90) then Some (n - 65)
  else if (97 <=? n) && (n <=? 122) then Some (n - 71)
  else if (48 <=? n) && (n <=? 57) then Some (n + 4)
  else if n =? 43 then Some 62
  else if n =? 47 then Some 63
  else None.

Fixpoint sextets (cs : list ascii) : option (list Z) :=
  match cs with
  | [] => Some []
  | c :: rest =>
      match sextet c, sextets rest with
      | Some v, Some vs => Some (v :: vs)
      | _, _ => None
      end
  end.

Fixpoint sextetsToBytes (fuel : nat) (vs : list Z) : list Z :=
  match fuel with
  | O => []
  | S fuel' =>
      match vs with
      | a :: b :: c :: d :: rest =>
          let n := a * 262144 + b * 4096 + c * 64 + d in
          n `div` 65536 :: (n `div` 256) `mod` 256 :: n `mod` 256
            :: sextetsToBytes fuel' rest
      | [a; b; c] =>
          let n := (a * 4096 + b * 64 + c) `div` 4 in
          [n `div` 256; n `mod` 256]
      | [a; b] => [(a * 64 + b) `div` 16]
      | _ => []
      end
  end.

Definition stripPadding (cs : list ascii) : list ascii :=
  if (length cs `mod` 4 =? 0)%nat then
    match reverse cs with
    | "="%char :: "="%char :: rest => reverse rest
    | "="%char :: rest => reverse rest
    | _ => cs
    end
  else cs.

Definition forgivingBase64 (data : string) : result string :=
  let cs := filter (λ c, isAsciiWhitespace c = false) (list_ascii_of_string data) in
  let cs := stripPadding cs in
  if (length cs `mod` 4 =? 1)%nat then Throw invalidCharacter
  else
    match sextets cs with
    | Some vs =>
        Ok (string_of_list_ascii
              (map (λ b, ascii_of_N (Z.to_N b)) (sextetsToBytes (length vs) vs)))
    | None => Throw invalidCharacter
    end.

Definition referencePlatform : Platform := {|
  AudioBuffer := list Z;
  atob := forgivingBase64;
  decodeAudioData := λ bytes, Ok bytes;
|}.

(** A run that ends with a session playing (mount, type "hi", generate,
    receive four samples, set the pitch to 3, play), and the world it
    reaches on the platform above. *)
Definition sampleRun : list Event :=
  [Mount false; TextInput [104; 105]; GenerateClick;
   Settled (Ok (Some "AAD//wABgAA="%string)); PitchInput 3; PlayStopClick].

Definition playingWorld : @World referencePlatform :=
  Eval vm_compute in
    match @run referencePlatform sampleRun initialWorld with
    | Ok w => w
    | Throw _ => initialWorld
    end.

(** An idle world with a decoded buffer, rate 1.5 and pitch -12. *)
Definition readyWorld : @World referencePlatform :=
  setPitch (-12) (setRate (3 # 2)
    (@setAudioBuffer referencePlatform (Some [0; 0]) (mount true initialWorld))).

(** What follows the sample run in a second one: a rate change, a pitch
    change and a new play; and the world after both. *)
Definition retuneRun : list Event :=
  [RateInput (2 # 1); PitchInput 12; PlayStopClick].

Definition retunedWorld : @World referencePlatform :=
  Eval vm_compute in
    match @run referencePlatform retuneRun playingWorld with
    | Ok w => w
    | Throw _ => playingWorld
    end.

(** * Properties *)

(** ** Integer conversions and byte order *)

Lemma ToUint8_mod v : ToUint8 v = v `mod` 256.
Proof. unfold ToUint8. change 255 with (Z.ones 8). by rewrite Z.land_ones. Qed.
Lemma ToUint16_mod v : ToUint16 v = v `mod` 65536.
Proof. unfold ToUint16. change 65535 with (Z.ones 16). by rewrite Z.land_ones. Qed.
Lemma ToUint32_mod v : ToUint32 v = v `mod` 4294967296.
Proof. unfold ToUint32. change 4294967295 with (Z.ones 32). by rewrite Z.land_ones. Qed.

Lemma byteAt_div v k : byteAt v k = (v `div` 2 ^ (8 * Z.of_nat k)) `mod` 256.
Proof.
  unfold byteAt. change 255 with (Z.ones 8).
  rewrite Z.land_ones by lia. rewrite Z.shiftr_div_pow2 by lia. done.
Qed.

Lemma byteAt_range v k : 0 ≤ byteAt v k < 256.
Proof. rewrite byteAt_div. apply Z.mod_pos_bound. lia. Qed.

Lemma lor_shiftl_add b r : 0 ≤ b < 256 → Z.lor b (Z.shiftl r 8) = b + 256 * r.
Proof.
  intros Hb. rewrite Z.shiftl_mul_pow2 by lia.
  rewrite <- Z.add_nocarry_lor.
  - change (2 ^ 8) with 256. lia.
  - apply Z.bits_inj'. intros n Hn. rewrite Z.land_spec, Z.bits_0.
    destruct (Z_lt_le_dec n 8).
    + rewrite Z.mul_pow2_bits_low by lia. apply andb_false_r.
    + assert (Z.testbit b n = false) as ->; [|done].
      destruct (Z.eq_dec b 0) as [->|]; [apply Z.bits_0|].
      apply Z.bits_above_log2; [lia|].
      assert (Z.log2 b < 8); [|lia]. apply Z.log2_lt_pow2; lia.
Qed.

Lemma fromBytes_rawBytes2 v : fromBytes (rawBytes 2 v) = v `mod` 65536.
Proof.
  unfold rawBytes. cbn [seq map fromBytes].
  rewrite !lor_shiftl_add by apply byteAt_range.
  rewrite !byteAt_div.
  change (2 ^ (8 * Z.of_nat 0)) with 1. change (2 ^ (8 * Z.of_nat 1)) with 256.
  rewrite Z.div_1_r.
  pose proof (Z.div_mod v 256 ltac:(lia)).
  pose proof (Z.div_mod (v `div` 256) 256 ltac:(lia)).
  pose proof (Z.mod_pos_bound v 256 ltac:(lia)).
  pose proof (Z.mod_pos_bound (v `div` 256) 256 ltac:(lia)).
  apply Z.mod_unique_pos with (q := (v `div` 256) `div` 256); lia.
Qed.

Lemma fromBytes_rawBytes4 v : fromBytes (rawBytes 4 v) = v `mod` 4294967296.
Proof.
  unfold rawBytes. cbn [seq map fromBytes].
  pose proof (byteAt_range v 0). pose proof (byteAt_range v 1).
  pose proof (byteAt_range v 2). pose proof (byteAt_range v 3).
  rewrite !lor_shiftl_add by lia.
  rewrite !byteAt_div in *. 
  change (2 ^ (8 * Z.of_nat 0)) with 1 in *. change (2 ^ (8 * Z.of_nat 1)) with 256 in *.
  change (2 ^ (8 * Z.of_nat 2)) with 65536 in *. change (2 ^ (8 * Z.of_nat 3)) with 16777216 in *.
  rewrite Z.div_1_r in *.
  assert (v `div` 65536 = (v `div` 256) `div` 256) as E2
    by (rewrite Z.div_div by lia; done).
  assert (v `div` 16777216 = ((v `div` 256) `div` 256) `div` 256) as E3
    by (rewrite !Z.div_div by lia; done).
  rewrite E2, E3 in *.
  set (a := v `div` 256) in *. set (b := a `div` 256) in *. set (c := b `div` 256) in *.
  pose proof (Z.div_mod v 256 ltac:(lia)). pose proof (Z.div_mod a 256 ltac:(lia)).
  pose proof (Z.div_mod b 256 ltac:(lia)). pose proof (Z.div_mod c 256 ltac:(lia)).
  apply Z.mod_unique_pos with (q := c `div` 256); lia.
Qed.

Lemma fromBytes_rawBytes2_U16 v : fromBytes (rawBytes 2 (ToUint16 v)) = v `mod` 65536.
Proof. rewrite fromBytes_rawBytes2, ToUint16_mod. by rewrite Zmod_mod. Qed.
Lemma fromBytes_rawBytes4_U32 v : fromBytes (rawBytes 4 (ToUint32 v)) = v `mod` 4294967296.
Proof. rewrite fromBytes_rawBytes4, ToUint32_mod. by rewrite Zmod_mod. Qed.

Lemma ToInt16_id v : -32768 ≤ v < 32768 → ToInt16 v = v.
Proof.
  intros Hv. unfold ToInt16. rewrite ToUint16_mod.
  destruct (Z_lt_le_dec v 0).
  - assert (v `mod` 65536 = v + 65536) as ->.
    { symmetry. apply Z.mod_unique_pos with (q := -1); lia. }
    destruct (Z.leb_spec 32768 (v + 65536)); lia.
  - rewrite Z.mod_small by lia. destruct (Z.leb_spec 32768 v); lia.
Qed.

Lemma ToInt16_range v : -32768 ≤ ToInt16 v < 32768.
Proof.
  unfold ToInt16. rewrite ToUint16_mod.
  pose proof (Z.mod_pos_bound v 65536 ltac:(lia)).
  destruct (Z.leb_spec 32768 (v `mod` 65536)); lia.
Qed.

Lemma ToUint16_ToInt16 v : ToUint16 (ToInt16 v) = ToUint16 v.
Proof.
  unfold ToInt16. rewrite !ToUint16_mod.
  destruct (Z.leb_spec 32768 (v `mod` 65536)).
  - rewrite <- (Z.mod_add _ 1) by lia.
    replace (v `mod` 65536 - 65536 + 1 * 65536) with (v `mod` 65536) by lia.
    by rewrite Zmod_mod.
  - by rewrite Zmod_mod.
Qed.

Lemma byteAt_ToUint16 v k : (k < 2)%nat → byteAt (ToUint16 v) k = byteAt v k.
Proof.
  intros Hk. unfold byteAt, ToUint16. apply Z.bits_inj'. intros n Hn.
  rewrite !Z.land_spec, !Z.shiftr_spec, Z.land_spec by lia.
  change 255 with (Z.ones 8). change 65535 with (Z.ones 16).
  destruct (Z_lt_le_dec n 8).
  - rewrite (Z.ones_spec_low 16) by lia. by rewrite andb_true_r.
  - rewrite (Z.ones_spec_high 8) by lia. by rewrite !andb_false_r.
Qed.

Lemma byteAt_ToInt16 v k : (k < 2)%nat → byteAt (ToInt16 v) k = byteAt v k.
Proof.
  intros Hk. rewrite <- (byteAt_ToUint16 (ToInt16 v)) by done.
  rewrite ToUint16_ToInt16. by apply byteAt_ToUint16.
Qed.

Lemma rawBytes2_ToInt16 v : rawBytes 2 (ToInt16 v) = [v `mod` 256; (v `div` 256) `mod` 256].
Proof.
  unfold rawBytes. cbn [seq map]. rewrite !byteAt_ToInt16 by lia.
  rewrite !byteAt_div. change (2 ^ (8 * Z.of_nat 0)) with 1.
  change (2 ^ (8 * Z.of_nat 1)) with 256. by rewrite Z.div_1_r.
Qed.

Lemma length_rawBytes w v : length (rawBytes w v) = w.
Proof. unfold rawBytes. by rewrite length_map, length_seq. Qed.

Lemma setBytes_app (pre old post bs : list Z) off :
  length pre = off → length old = length bs →
  setBytes (pre ++ old ++ post) off bs = Ok (pre ++ bs ++ post).
Proof.
  intros Hpre Hold. unfold setBytes.
  rewrite !length_app.
  destruct (Nat.leb_spec (off + length bs) (length pre + (length old + length post))); [|lia].
  f_equal. rewrite take_app_length' by done.
  rewrite drop_app_ge by lia. rewrite drop_app_length' by lia. done.
Qed.

Lemma getBytes_app (pre bs post : list Z) off w :
  length pre = off → length bs = w →
  getBytes (pre ++ bs ++ post) off w = Ok bs.
Proof.
  intros Hpre Hbs. unfold getBytes. rewrite !length_app.
  destruct (Nat.leb_spec (off + w) (length pre + (length bs + length post))); [|lia].
  f_equal. rewrite drop_app_length' by done. by rewrite take_app_length'.
Qed.

Lemma writeSamples_app (pre : list Z) i pcm post :
  length pre = (44 + i * 2)%nat →
  writeSamples (pre ++ replicate (length pcm * 2) 0 ++ post) 44 i pcm
  = Ok (pre ++ payloadBytes pcm ++ post).
Proof.
  revert pre i. induction pcm as [|s pcm IH]; intros pre i Hpre.
  - done.
  - cbn [writeSamples length]. unfold setInt16, ordered.
    change (S (length pcm) * 2)%nat with (2 + length pcm * 2)%nat.
    rewrite replicate_add, <- (assoc_L (++) (replicate 2 0)).
    rewrite setBytes_app by (rewrite ?length_rawBytes; done).
    cbn [mbind result_bind].
    rewrite (assoc_L (++) pre).
    rewrite IH by (rewrite length_app, length_rawBytes; lia).
    unfold payloadBytes. cbn [map concat].
    by rewrite <- !(assoc_L (++)).
Qed.

Lemma header_written {B} (a b c d sr nc : Z) m (k : list Z → result B) :
  (view ← writeString (ArrayBuffer (44 + m)) 0 "RIFF";
  view ← setUint32 view 4 a true;
  view ← writeString view 8 "WAVE";
  view ← writeString view 12 "fmt ";
  view ← setUint32 view 16 16 true;
  view ← setUint16 view 20 1 true;
  view ← setUint16 view 22 nc true;
  view ← setUint32 view 24 sr true;
  view ← setUint32 view 28 c true;
  view ← setUint16 view 32 d true;
  view ← setUint16 view 34 16 true;
  view ← writeString view 36 "data";
  view ← setUint32 view 40 b true;
  k view) = k (
  codes "RIFF" ++ rawBytes 4 (ToUint32 a) ++
  codes "WAVE" ++ codes "fmt " ++ rawBytes 4 (ToUint32 16) ++ rawBytes 2 (ToUint16 1) ++
  rawBytes 2 (ToUint16 nc) ++ rawBytes 4 (ToUint32 sr) ++ rawBytes 4 (ToUint32 c) ++
  rawBytes 2 (ToUint16 d) ++ rawBytes 2 (ToUint16 16) ++ codes "data" ++
  rawBytes 4 (ToUint32 b) ++ replicate m 0).
Proof.
  cbv beta iota zeta delta [mbind result_bind writeString setUint8 setUint16 setUint32 setBytes
    ordered rawBytes map seq take drop app length Nat.leb Nat.add ArrayBuffer replicate
    codes list_ascii_of_string List.map List.seq List.app List.length].
  reflexivity.
Qed.

(** The whole output in closed form: the sequence of [DataView] writes never
    leaves the buffer, and produces the header followed by the payload. *)
Theorem pcmToWavBlob_layout pcm sr nc :
  pcmToWavBlob pcm sr nc =
  Ok {| blobBytes := headerBytes (length pcm) sr nc ++ payloadBytes pcm;
        blobType := "audio/wav" |}.
Proof.
  unfold pcmToWavBlob. cbv zeta.
  rewrite header_written.
  change (16 `div` 8) with 2. change (Z.to_nat 2) with 2%nat.
  pose proof (writeSamples_app
    (codes "RIFF" ++ rawBytes 4 (ToUint32 (Z.of_nat (44 + length pcm * 2) - 8)) ++
     codes "WAVE" ++ codes "fmt " ++ rawBytes 4 (ToUint32 16) ++
     rawBytes 2 (ToUint16 1) ++ rawBytes 2 (ToUint16 nc) ++
     rawBytes 4 (ToUint32 sr) ++ rawBytes 4 (ToUint32 (byteRate sr nc)) ++
     rawBytes 2 (ToUint16 (blockAlign nc)) ++ rawBytes 2 (ToUint16 16) ++
     codes "data" ++ rawBytes 4 (ToUint32 (Z.of_nat (length pcm * 2))))
    0 pcm [] eq_refl) as Hw.
  rewrite !app_nil_r in Hw. rewrite <- !(assoc_L (++)) in Hw.
  fold (byteRate sr nc) (blockAlign nc).
  rewrite Hw. reflexivity.
Qed.

Lemma length_headerBytes n sr nc : length (headerBytes n sr nc) = 44%nat.
Proof. reflexivity. Qed.

Lemma length_payloadBytes pcm : length (payloadBytes pcm) = (length pcm * 2)%nat.
Proof.
  unfold payloadBytes. induction pcm as [|s pcm IH]; [done|].
  cbn [map concat length]. rewrite length_app, length_rawBytes, IH. lia.
Qed.

(** Reading the header fields back from any file that starts with
    [headerBytes]. *)
Lemma header_fields n sr nc rest :
  let file := headerBytes n sr nc ++ rest in
  take 4 file = codes "RIFF" ∧
  getUint32 file 4 true = Ok ((Z.of_nat (44 + n * 2) - 8) `mod` 4294967296) ∧
  take 4 (drop 8 file) = codes "WAVE" ∧
  take 4 (drop 12 file) = codes "fmt " ∧
  getUint32 file 16 true = Ok 16 ∧
  getUint16 file 20 true = Ok 1 ∧
  getUint16 file 22 true = Ok (nc `mod` 65536) ∧
  getUint32 file 24 true = Ok (sr `mod` 4294967296) ∧
  getUint32 file 28 true = Ok (byteRate sr nc `mod` 4294967296) ∧
  getUint16 file 32 true = Ok (blockAlign nc `mod` 65536) ∧
  getUint16 file 34 true = Ok 16 ∧
  take 4 (drop 36 file) = codes "data" ∧
  getUint32 file 40 true = Ok (Z.of_nat (n * 2) `mod` 4294967296).
Proof.
  intros file.
  rewrite <- !fromBytes_rawBytes4_U32, <- !fromBytes_rawBytes2_U16.
  change 16 with (fromBytes (rawBytes 4 (ToUint32 16))) at 1.
  change 1 with (fromBytes (rawBytes 2 (ToUint16 1))) at 1.
  change (Ok 16) with (Ok (A:=Z) (fromBytes (rawBytes 2 (ToUint16 16)))).
  subst file.
  cbv beta iota zeta delta [headerBytes mbind result_bind getUint16 getUint32
    getBytes ordered rawBytes map seq take drop app length Nat.leb Nat.add
    codes list_ascii_of_string List.map List.seq List.app List.length].
  repeat split; reflexivity.
Qed.

(** A product below 2^53 in magnitude is exact. *)
Lemma roundDouble_small v : Z.abs v < 2 ^ 53 → roundDouble v = Some v.
Proof.
  intros Hv. unfold roundDouble.
  assert (Z.log2 (Z.abs v) - 52 ≤ 0) as He.
  { destruct (Z.eq_dec (Z.abs v) 0) as [->|Hne]; [done|].
    assert (Z.log2 (Z.abs v) < 53); [|lia].
    apply Z.log2_lt_pow2; lia. }
  by destruct (Z.leb_spec (Z.log2 (Z.abs v) - 52) 0); [|lia].
Qed.

(** Beyond 2^53 a product is rounded: the byte rate of 2147483649 channels
    at 2147483649 Hz is 2^63 + 2^33, not 2^63 + 2^33 + 2, so bytes 28-31
    are all zero. *)
Lemma byteRate_rounds :
  byteRate 2147483649 2147483649 = 2 ^ 63 + 2 ^ 33 ∧
  byteRate (2 ^ 53 - 1) 3 = 2 ^ 55 + 2 ^ 54 - 8 ∧
  ∃ blob, pcmToWavBlob [] 2147483649 2147483649 = Ok blob ∧
    take 4 (drop 28 (blobBytes blob)) = [0; 0; 0; 0].
Proof.
  split; [reflexivity|]. split; [reflexivity|].
  eexists. split; [apply pcmToWavBlob_layout|reflexivity].
Qed.

Lemma byteRate_exact sr nc :
  Z.abs (sr * nc * 2) < 2 ^ 53 → byteRate sr nc = sr * nc * 2.
Proof.
  intros Hb. unfold byteRate. cbn [mulNumber].
  rewrite (roundDouble_small (sr * nc)) by lia.
  cbn [mulNumber]. by rewrite roundDouble_small.
Qed.

Lemma blockAlign_exact nc :
  Z.abs (nc * 2) < 2 ^ 53 → blockAlign nc = nc * 2.
Proof.
  intros Hb. unfold blockAlign. cbn [mulNumber].
  by rewrite roundDouble_small.
Qed.

Lemma payloadBytes_app l1 l2 :
  payloadBytes (l1 ++ l2) = payloadBytes l1 ++ payloadBytes l2.
Proof. unfold payloadBytes. by rewrite map_app, concat_app. Qed.

(** Where sample [i] sits in a file: after the header and the [i] samples
    before it. *)
Lemma file_split n sr nc pcm i s :
  pcm !! i = Some s →
  headerBytes n sr nc ++ payloadBytes pcm =
  (headerBytes n sr nc ++ payloadBytes (take i pcm)) ++
  rawBytes 2 (ToInt16 s) ++ payloadBytes (drop (S i) pcm).
Proof.
  intros Hi. rewrite <- (take_drop_middle pcm i s Hi) at 1.
  rewrite payloadBytes_app. change (s :: drop (S i) pcm) with ([s] ++ drop (S i) pcm).
  rewrite payloadBytes_app. unfold payloadBytes at 2. cbn [map concat].
  rewrite app_nil_r. by rewrite <- !(assoc_L (++)).
Qed.

Lemma length_file_prefix n sr nc (pcm : list Z) i :
  (i < length pcm)%nat →
  length (headerBytes n sr nc ++ payloadBytes (take i pcm)) = (44 + 2 * i)%nat.
Proof.
  intros Hi. rewrite length_app, length_headerBytes, length_payloadBytes.
  rewrite length_take. lia.
Qed.

Lemma ToInt16_ToUint16 v : ToInt16 (ToUint16 v) = ToInt16 v.
Proof. unfold ToInt16. rewrite !ToUint16_mod. by rewrite Zmod_mod. Qed.

Lemma getInt16_rawBytes pre post s off :
  length pre = off →
  getInt16 (pre ++ rawBytes 2 (ToInt16 s) ++ post) off true = Ok (ToInt16 s).
Proof.
  intros Hpre. unfold getInt16.
  rewrite getBytes_app by (rewrite ?length_rawBytes; done).
  cbn [mbind result_bind ordered]. f_equal.
  rewrite fromBytes_rawBytes2, <- ToUint16_mod.
  by rewrite ToUint16_ToInt16, ToInt16_ToUint16.
Qed.

(** ** The container encoder *)

(** C1 (amended). For every sample buffer of N samples and every sample
    rate and channel count the encoder returns exactly 44 + 2N bytes. When
    36 + 2N fits in 32 bits, the file-size field at bytes 4-7 is 36 + 2N
    and the payload-size field at bytes 40-43 is 2N; when moreover the
    sample rate fits in 32 bits and the channel count in 16 bits (both
    non-negative), reading the header back gives the sample rate, the
    channel count and the sample count exactly. *)
Theorem C1_round_trip_framing (pcmData : list Z) (sampleRate numChannels : Z) :
  ∃ blob, pcmToWavBlob pcmData sampleRate numChannels = Ok blob ∧
    length (blobBytes blob) = (44 + 2 * length pcmData)%nat ∧
    (36 + 2 * Z.of_nat (length pcmData) < 2 ^ 32 →
      getUint32 (blobBytes blob) 4 true
        = Ok (36 + 2 * Z.of_nat (length pcmData)) ∧
      getUint32 (blobBytes blob) 40 true = Ok (2 * Z.of_nat (length pcmData)) ∧
      (0 ≤ sampleRate < 2 ^ 32 → 0 ≤ numChannels < 2 ^ 16 →
        readHeader (blobBytes blob)
          = Ok {| fmtSampleRate := sampleRate; fmtChannels := numChannels;
                  fmtSampleCount := Z.of_nat (length pcmData) |})).
Proof.
  eexists. split; [apply pcmToWavBlob_layout|]. cbn [blobBytes].
  split.
  { rewrite length_app, length_headerBytes, length_payloadBytes. lia. }
  intros Hn.
  destruct (header_fields (length pcmData) sampleRate numChannels
              (payloadBytes pcmData))
    as (_ & H4 & _ & _ & _ & _ & H22 & H24 & _ & _ & _ & _ & H40).
  cbv zeta in *.
  assert (Z.of_nat (length pcmData * 2) `mod` 4294967296
          = 2 * Z.of_nat (length pcmData)) as E40.
  { rewrite Z.mod_small by lia. lia. }
  rewrite E40 in H40.
  split; [|split]; [|done|].
  - rewrite H4. f_equal.
    replace (Z.of_nat (44 + length pcmData * 2) - 8)
      with (36 + 2 * Z.of_nat (length pcmData)) by lia.
    rewrite Z.mod_small by lia. lia.
  - intros Hsr Hnc. unfold readHeader. rewrite H22, H24, H40.
    cbn [mbind result_bind].
    rewrite !Z.mod_small by lia.
    do 2 f_equal. rewrite Z.mul_comm. apply Z.div_mul. lia.
Qed.

Lemma C1_round_trip_framing_witness :
  ∃ blob, pcmToWavBlob [0; -1; 256] 24000 1 = Ok blob ∧
    getUint32 (blobBytes blob) 4 true = Ok 42 ∧
    getUint32 (blobBytes blob) 40 true = Ok 6 ∧
    readHeader (blobBytes blob)
      = Ok {| fmtSampleRate := 24000; fmtChannels := 1; fmtSampleCount := 3 |}.
Proof.
  destruct (C1_round_trip_framing [0; -1; 256] 24000 1)
    as (blob & Hblob & _ & Hfields).
  exists blob. split; [exact Hblob|].
  destruct Hfields as (H4 & H40 & Hread); [cbn; lia|].
  split; [exact H4|]. split; [exact H40|].
  apply Hread; lia.
Defined.

(** C1, as stated, fails: channel count 2147483649 gives the very same
    file as channel count 1, and its channel field reads 1, so the channel
    count cannot be recovered for any sample rate and channel count. *)
Lemma C1_counterexample :
  ∃ blob, pcmToWavBlob [] 24000 2147483649 = Ok blob ∧
    pcmToWavBlob [] 24000 1 = Ok blob ∧
    readHeader (blobBytes blob)
      = Ok {| fmtSampleRate := 24000; fmtChannels := 1; fmtSampleCount := 0 |}.
Proof.
  eexists. split; [apply pcmToWavBlob_layout|].
  split; [rewrite pcmToWavBlob_layout|]; vm_compute; reflexivity.
Qed.

(** C2 (amended). For every input the header holds the markers RIFF, WAVE,
    fmt and data at bytes 0-3, 8-11, 12-15 and 36-39, and the little-endian
    fields format-block length 16 at bytes 16-19, format code 1 at bytes
    20-21 and bits per sample 16 at bytes 34-35. Each of the other fields
    holds its value whenever the value fits the field: the channel count
    at bytes 22-23 when it is in [0, 2^16), the sample rate at bytes 24-27
    when it is in [0, 2^32), the byte rate sampleRate x channelCount x 2 at
    bytes 28-31 when it is in [0, 2^32), and the block alignment
    channelCount x 2 at bytes 32-33 when it is in [0, 2^16). *)
Theorem C2_header_layout (pcmData : list Z) (sampleRate numChannels : Z) :
  ∃ blob, pcmToWavBlob pcmData sampleRate numChannels = Ok blob ∧
    let file := blobBytes blob in
    take 4 file = codes "RIFF" ∧
    take 4 (drop 8 file) = codes "WAVE" ∧
    take 4 (drop 12 file) = codes "fmt " ∧
    take 4 (drop 36 file) = codes "data" ∧
    getUint32 file 16 true = Ok 16 ∧
    getUint16 file 20 true = Ok 1 ∧
    getUint16 file 34 true = Ok 16 ∧
    (0 ≤ numChannels < 2 ^ 16 → getUint16 file 22 true = Ok numChannels) ∧
    (0 ≤ sampleRate < 2 ^ 32 → getUint32 file 24 true = Ok sampleRate) ∧
    (0 ≤ sampleRate * numChannels * 2 < 2 ^ 32 →
       getUint32 file 28 true = Ok (sampleRate * numChannels * 2)) ∧
    (0 ≤ numChannels * 2 < 2 ^ 16 →
       getUint16 file 32 true = Ok (numChannels * 2)).
Proof.
  eexists. split; [apply pcmToWavBlob_layout|]. cbn [blobBytes].
  destruct (header_fields (length pcmData) sampleRate numChannels
              (payloadBytes pcmData))
    as (? & ? & ? & ? & ? & ? & H22 & H24 & H28 & H32 & ? & ? & ?).
  cbv zeta in *. change (2 ^ 16) with 65536. change (2 ^ 32) with 4294967296.
  repeat split; try assumption.
  - intros Hnc. rewrite H22. f_equal. by apply Z.mod_small.
  - intros Hsr. rewrite H24. f_equal. by apply Z.mod_small.
  - intros Hbr. rewrite H28, byteRate_exact by lia. f_equal.
    by apply Z.mod_small.
  - intros Hba. rewrite H32, blockAlign_exact by lia. f_equal.
    by apply Z.mod_small.
Qed.

Lemma C2_header_layout_witness :
  ∃ blob, pcmToWavBlob [0; -1] 24000 1 = Ok blob ∧
    getUint16 (blobBytes blob) 22 true = Ok 1 ∧
    getUint32 (blobBytes blob) 24 true = Ok 24000 ∧
    getUint32 (blobBytes blob) 28 true = Ok 48000 ∧
    getUint16 (blobBytes blob) 32 true = Ok 2.
Proof.
  destruct (C2_header_layout [0; -1] 24000 1)
    as (blob & Hb & _ & _ & _ & _ & _ & _ & _ & H22 & H24 & H28 & H32).
  exists blob. split; [exact Hb|].
  split; [apply H22; lia|]. split; [apply H24; lia|].
  split; [apply H28; lia|apply H32; lia].
Defined.

(** C2, as stated, fails: with 32768 channels the block alignment
    32768 x 2 does not fit its 16-bit field, which reads 0. *)
Lemma C2_counterexample :
  ∃ blob, pcmToWavBlob [] 24000 32768 = Ok blob ∧
    getUint16 (blobBytes blob) 32 true = Ok 0 ∧
    getUint16 (blobBytes blob) 32 true ≠ Ok (32768 * 2).
Proof.
  eexists. split; [apply pcmToWavBlob_layout|].
  split; vm_compute; [reflexivity|discriminate].
Qed.

(** C3 (amended). The encoder validates nothing and never fails: for every
    sample rate and channel count, zero and negative ones included, and for
    all sample values, it returns a file of 44 + 2N bytes, a header with
    the four markers at their offsets followed from byte 44 on by two bytes
    per sample. *)
Theorem C3_no_validation (pcmData : list Z) (sampleRate numChannels : Z) :
  ∃ blob, pcmToWavBlob pcmData sampleRate numChannels = Ok blob ∧
    length (blobBytes blob) = (44 + 2 * length pcmData)%nat ∧
    take 4 (blobBytes blob) = codes "RIFF" ∧
    take 4 (drop 8 (blobBytes blob)) = codes "WAVE" ∧
    take 4 (drop 12 (blobBytes blob)) = codes "fmt " ∧
    take 4 (drop 36 (blobBytes blob)) = codes "data" ∧
    drop 44 (blobBytes blob) = payloadBytes pcmData.
Proof.
  eexists. split; [apply pcmToWavBlob_layout|]. cbn [blobBytes].
  destruct (header_fields (length pcmData) sampleRate numChannels
              (payloadBytes pcmData))
    as (? & _ & ? & ? & _ & _ & _ & _ & _ & _ & _ & ? & _).
  cbv zeta in *. split.
  { rewrite length_app, length_headerBytes, length_payloadBytes. lia. }
  do 4 (split; [assumption|]).
  apply drop_app_length'. reflexivity.
Qed.

(** C3, as stated, fails: with sample rate 0 and channel count -1 the
    encoder does not fail; it emits a header whose sample-rate field is 0
    and whose channel field is 65535. *)
Lemma C3_counterexample :
  ∃ blob, pcmToWavBlob [] 0 (-1) = Ok blob ∧
    length (blobBytes blob) = 44%nat ∧
    getUint32 (blobBytes blob) 24 true = Ok 0 ∧
    getUint16 (blobBytes blob) 22 true = Ok 65535.
Proof.
  eexists. split; [apply pcmToWavBlob_layout|].
  repeat split; vm_compute; reflexivity.
Qed.

(** C4. The samples follow the header from byte 44 on, in order, each as a
    little-endian signed 16-bit integer: sample [i] has its low byte at
    offset 44 + 2i and its high byte at 44 + 2i + 1, and reads back as a
    signed 16-bit value. *)
Theorem C4_payload_little_endian (pcmData : list Z) (sampleRate numChannels : Z) :
  ∃ blob, pcmToWavBlob pcmData sampleRate numChannels = Ok blob ∧
    drop 44 (blobBytes blob) = payloadBytes pcmData ∧
    ∀ (i : nat) (s : Z), pcmData !! i = Some s →
      blobBytes blob !! (44 + 2 * i)%nat = Some (s `mod` 256) ∧
      blobBytes blob !! (44 + 2 * i + 1)%nat = Some ((s `div` 256) `mod` 256) ∧
      getInt16 (blobBytes blob) (44 + 2 * i) true = Ok (ToInt16 s).
Proof.
  eexists. split; [apply pcmToWavBlob_layout|]. cbn [blobBytes].
  split; [apply drop_app_length'; reflexivity|].
  intros i s Hi.
  pose proof (lookup_lt_Some _ _ _ Hi) as Hlt.
  rewrite (file_split _ _ _ _ _ _ Hi).
  pose proof (length_file_prefix (length pcmData) sampleRate numChannels
                pcmData i Hlt) as Hpre.
  split; [|split].
  - rewrite lookup_app_r by lia. rewrite Hpre, Nat.sub_diag.
    by rewrite rawBytes2_ToInt16.
  - rewrite lookup_app_r by lia. rewrite Hpre.
    replace (44 + 2 * i + 1 - (44 + 2 * i))%nat with 1%nat by lia.
    by rewrite rawBytes2_ToInt16.
  - by apply getInt16_rawBytes.
Qed.

Lemma C4_payload_little_endian_witness :
  (∃ blob, pcmToWavBlob [-1] 24000 1 = Ok blob ∧
     blobBytes blob !! 44%nat = Some 255 ∧ blobBytes blob !! 45%nat = Some 255) ∧
  (∃ blob, pcmToWavBlob [256] 24000 1 = Ok blob ∧
     blobBytes blob !! 44%nat = Some 0 ∧ blobBytes blob !! 45%nat = Some 1).
Proof.
  split.
  - destruct (C4_payload_little_endian [-1] 24000 1) as (blob & Hb & _ & Hs).
    exists blob. split; [exact Hb|].
    destruct (Hs 0%nat (-1) eq_refl) as (Hlo & Hhi & _).
    split; [exact Hlo|exact Hhi].
  - destruct (C4_payload_little_endian [256] 24000 1) as (blob & Hb & _ & Hs).
    exists blob. split; [exact Hb|].
    destruct (Hs 0%nat 256 eq_refl) as (Hlo & Hhi & _).
    split; [exact Hlo|exact Hhi].
Defined.

(** ** Reinterpreting bytes as samples *)

Lemma length_int16Elements k : ∀ buffer : list Z,
  length buffer = (2 * k)%nat → length (int16Elements buffer) = k.
Proof.
  induction k as [|k IH]; intros buffer Hlen.
  - by destruct buffer.
  - destruct buffer as [|lo [|hi rest]]; cbn [length] in Hlen; try lia.
    cbn [int16Elements length]. f_equal. apply IH. lia.
Qed.

(** C5. [new Int16Array(buffer)] throws (a [RangeError], which the
    specification calls MalformedAudioError) for every buffer of odd
    length, and for every buffer of 2k bytes it succeeds with exactly k
    samples. *)
Theorem C5_reinterpretation (buffer : list Z) :
  (Nat.Odd (length buffer) →
     ∃ message, Int16Array buffer = Throw (RangeError message)) ∧
  (∀ k : nat, length buffer = (2 * k)%nat →
     ∃ samples, Int16Array buffer = Ok samples ∧ length samples = k).
Proof.
  unfold Int16Array. split.
  - intros [m Hm]. exists "byte length of Int16Array should be a multiple of 2"%string.
    replace (length buffer `mod` 2)%nat with 1%nat; [done|].
    rewrite Hm. symmetry. rewrite Nat.add_comm, Nat.mul_comm.
    by rewrite Nat.Div0.mod_add.
  - intros k Hk. exists (int16Elements buffer).
    split; [|by apply length_int16Elements].
    replace (length buffer `mod` 2)%nat with 0%nat; [done|].
    rewrite Hk, Nat.mul_comm. by rewrite Nat.Div0.mod_mul.
Qed.

Lemma C5_reinterpretation_witness :
  (∃ message, Int16Array [1; 2; 3] = Throw (RangeError message)) ∧
  (∃ samples, Int16Array [1; 2; 3; 4] = Ok samples ∧ length samples = 2%nat).
Proof.
  split.
  - apply (C5_reinterpretation [1; 2; 3]). exists 1%nat. reflexivity.
  - apply (C5_reinterpretation [1; 2; 3; 4]). reflexivity.
Defined.

(** ** The playback transport *)

Section AppProofs.
Context `{Platform}.

Lemma Inv_initial : Inv initialWorld.
Proof.
  split; [|split]; cbn.
  - split; [done|]. by intros [? ?].
  - done.
  - intros a nd Ha. by rewrite lookup_nil in Ha.
Qed.

(** The invariant looks at [isPlaying], the reference and the heap only. *)
Lemma Inv_frame (w w' : World) :
  isPlaying w' = isPlaying w → sourceNodeRef w' = sourceNodeRef w →
  heap w' = heap w → Inv w → Inv w'.
Proof. unfold Inv. intros -> -> ->. done. Qed.

Lemma Inv_idle (w : World) :
  Inv w → isPlaying w = false → sourceNodeRef w = None.
Proof.
  intros (Hp & _ & _) Hf. destruct (sourceNodeRef w) eqn:E; [|done].
  assert (isPlaying w = true) by (apply Hp; eauto). congruence.
Qed.

Lemma Inv_current (w : World) a :
  Inv w → sourceNodeRef w = Some a →
  ∃ nd, heap w !! a = Some nd ∧ currentNode nd.
Proof.
  intros (_ & Hr & Hn) Ha. destruct (Hr a Ha) as [nd Hnd].
  exists nd. split; [done|]. specialize (Hn a nd Hnd).
  by rewrite bool_decide_eq_true_2 in Hn.
Qed.

Lemma Inv_other (w : World) a nd :
  Inv w → heap w !! a = Some nd → sourceNodeRef w ≠ Some a →
  finishedNode nd ∨ stoppedNode nd.
Proof.
  intros (_ & _ & Hn) Hnd Ha. specialize (Hn a nd Hnd).
  by rewrite bool_decide_eq_false_2 in Hn.
Qed.

(** What [stopPlayback] does to a world with a current, started node. *)
Lemma stopPlayback_current (w : World) a nd :
  sourceNodeRef w = Some a → heap w !! a = Some nd → started nd = true →
  stopPlayback w =
  Ok (setIsPlaying false (setSourceNodeRef None
        (setHeap (alter stopNode a (heap w)) w))).
Proof.
  intros Ha Hnd Hst. unfold stopPlayback, nodeStop, updateNode. rewrite Ha.
  cbn. rewrite list_lookup_alter_eq, Hnd. cbn. rewrite Hst. cbn.
  rewrite list_alter_alter_eq. reflexivity.
Qed.

Lemma stopPlayback_idle (w : World) :
  sourceNodeRef w = None → stopPlayback w = Ok w.
Proof. intros Ha. unfold stopPlayback. by rewrite Ha. Qed.

Lemma stoppedNode_stopNode nd : currentNode nd → stoppedNode (stopNode nd).
Proof. intros (? & ? & ? & ? & ?). by repeat split. Qed.

Lemma Inv_stopped (w : World) a nd :
  Inv w → sourceNodeRef w = Some a → heap w !! a = Some nd →
  Inv (setIsPlaying false (setSourceNodeRef None
         (setHeap (alter stopNode a (heap w)) w))).
Proof.
  intros HI Ha Hnd. split; [|split]; cbn.
  - split; [done|]. by intros [? ?].
  - done.
  - intros b nd' Hb. rewrite bool_decide_eq_false_2 by done.
    destruct (decide (a = b)) as [<-|Hne].
    + rewrite list_lookup_alter_eq, Hnd in Hb. injection Hb as <-.
      right. apply stoppedNode_stopNode.
      destruct (Inv_current w a HI Ha) as (nd0 & Hnd0 & Hc). congruence.
    + rewrite list_lookup_alter_ne in Hb by done.
      apply (Inv_other w b nd' HI Hb). congruence.
Qed.

(** [stopPlayback] never throws from a state of the invariant, and keeps
    it. *)
Lemma stopPlayback_Inv (w : World) :
  Inv w → ∃ w', stopPlayback w = Ok w' ∧ Inv w' ∧
    isPlaying w' = false ∧ sourceNodeRef w' = None.
Proof.
  intros HI. destruct (sourceNodeRef w) as [a|] eqn:Ha.
  - destruct (Inv_current w a HI Ha) as (nd & Hnd & Hc).
    eexists. split; [apply (stopPlayback_current w a nd); try done; apply Hc|].
    split; [by apply (Inv_stopped w a nd)|done].
  - exists w. split; [by apply stopPlayback_idle|]. split; [done|].
    split; [|done]. destruct HI as (Hp & _).
    destruct (isPlaying w); [|done]. destruct Hp as [Hp _].
    destruct (Hp eq_refl) as [? ?]. congruence.
Qed.

Lemma alter_snoc {A} (f : A → A) (l : list A) (x : A) :
  alter f (length l) (l ++ [x]) = l ++ [f x].
Proof.
  induction l as [|y l IH]; [done|]. cbn. by rewrite IH.
Qed.

(** What the play branch of [handlePlayStop] does. *)
Lemma handlePlayStop_play (w : World) c b :
  audioContextRef w = Some c → isPlaying w = false → audioBuffer w = Some b →
  handlePlayStop w =
  Ok (setIsPlaying true (setSourceNodeRef (Some (length (heap w)))
        (setHeap (heap w ++ [playNode b (rate w) (pitch w)])
           (match c with
            | suspended => setAudioContextRef (Some running) w
            | _ => w
            end)))).
Proof.
  intros Hc Hp Hb. unfold handlePlayStop. rewrite Hc.
  assert (∀ w0 : World, isPlaying w0 = false → audioBuffer w0 = Some b →
    heap w0 = heap w → rate w0 = rate w → pitch w0 = pitch w →
    (if isPlaying w0 then stopPlayback w0 else
      match audioBuffer w0 with
      | Some b =>
          let source := length (heap w0) in
          let w := setHeap (heap w0 ++ [newSourceNode]) w0 in
          let w := updateNode source (setBuffer (Some b)) w in
          let w := updateNode source (setPlaybackRate (rate w)) w in
          let w := updateNode source (setDetune (pitch w * 100)) w in
          let w := updateNode source (setConnected true) w in
          w ← nodeStart source w;
          let w := updateNode source (setOnended (Some PlaybackEnded)) w in
          let w := setSourceNodeRef (Some source) w in
          Ok (setIsPlaying true w)
      | None => Ok w0
      end) =
    Ok (setIsPlaying true (setSourceNodeRef (Some (length (heap w)))
        (setHeap (heap w ++ [playNode b (rate w) (pitch w)]) w0)))) as Hgen.
  { intros w0 Hp0 Hb0 Hh Hr Hpi. rewrite Hp0, Hb0. cbv zeta.
    unfold nodeStart, updateNode. cbn.
    rewrite !alter_snoc. cbn. rewrite lookup_app_r, Nat.sub_diag by lia. cbn.
    rewrite ?alter_snoc. rewrite Hh, Hr, Hpi. reflexivity. }
  destruct c; apply Hgen; done.
Qed.

Lemma Inv_play (w w0 : World) b :
  Inv w → isPlaying w = false →
  isPlaying w0 = isPlaying w → sourceNodeRef w0 = sourceNodeRef w →
  heap w0 = heap w →
  Inv (setIsPlaying true (setSourceNodeRef (Some (length (heap w)))
         (setHeap (heap w ++ [playNode b (rate w) (pitch w)]) w0))).
Proof.
  intros HI Hp _ _ _. pose proof (Inv_idle w HI Hp) as Hr.
  split; [|split]; cbn.
  - split; [eauto|done].
  - intros a [= <-]. rewrite lookup_app_r, Nat.sub_diag by lia. eauto.
  - intros a nd Ha. case_bool_decide as Hd.
    + injection Hd as <-. rewrite lookup_app_r, Nat.sub_diag in Ha by lia.
      injection Ha as <-. by repeat split.
    + destruct (decide (a < length (heap w))%nat) as [Hlt|Hge].
      * rewrite lookup_app_l in Ha by done.
        apply (Inv_other w a nd HI Ha). congruence.
      * apply lookup_lt_Some in Ha. rewrite length_app in Ha. cbn in Ha.
        assert (a = length (heap w)) as -> by lia. done.
Qed.

Lemma handlePlayStop_Inv (w : World) :
  Inv w → ∃ w', handlePlayStop w = Ok w' ∧ Inv w'.
Proof.
  intros HI. destruct (audioContextRef w) as [c|] eqn:Hc.
  2:{ exists w. unfold handlePlayStop. by rewrite Hc. }
  destruct (isPlaying w) eqn:Hp.
  - set (w0 := match c with
               | suspended => setAudioContextRef (Some running) w
               | _ => w
               end).
    assert (Inv w0) as HI0 by (subst w0; destruct c; done).
    destruct (stopPlayback_Inv w0 HI0) as (w' & Hs & HI' & _).
    exists w'. split; [|done]. unfold handlePlayStop. rewrite Hc.
    fold w0. replace (isPlaying w0) with true by (subst w0; by destruct c).
    done.
  - destruct (audioBuffer w) as [b|] eqn:Hb.
    + eexists. split; [by apply (handlePlayStop_play w c b)|].
      apply Inv_play; try done; by destruct c.
    + unfold handlePlayStop. rewrite Hc.
      destruct c; cbn; rewrite Hp, Hb; eexists; (split; [reflexivity|done]).
Qed.

(** The three ways the [ended] event can go. *)
Lemma dispatchEnded_handler (w : World) a nd c :
  heap w !! a = Some nd → started nd = true → endedFired nd = false →
  onended nd = Some c →
  dispatchEnded a w = runClosure c (setHeap (alter endNode a (heap w)) w).
Proof.
  intros Hnd Hs He Ho. unfold dispatchEnded, updateNode.
  rewrite Hnd, Hs, He, Ho. cbn. rewrite list_alter_alter_eq.
  match goal with |- context [alter ?f a (heap w)] =>
    assert (alter f a (heap w) = alter endNode a (heap w)) as ->
  end; [|reflexivity].
  apply list_alter_ext; [|done].
  intros x Hx. assert (x = nd) as -> by congruence. reflexivity.
Qed.

Lemma dispatchEnded_silent (w : World) a nd :
  heap w !! a = Some nd → started nd = true → endedFired nd = false →
  onended nd = None →
  dispatchEnded a w = setHeap (alter (setEndedFired true) a (heap w)) w.
Proof.
  intros Hnd Hs He Ho. unfold dispatchEnded, updateNode.
  by rewrite Hnd, Hs, He, Ho.
Qed.

Lemma dispatchEnded_fired (w : World) a nd :
  heap w !! a = Some nd → endedFired nd = true → dispatchEnded a w = w.
Proof.
  intros Hnd He. unfold dispatchEnded. rewrite Hnd, He.
  by rewrite andb_false_r.
Qed.

Lemma dispatchEnded_absent (w : World) a :
  heap w !! a = None → dispatchEnded a w = w.
Proof. intros Hnd. unfold dispatchEnded. by rewrite Hnd. Qed.

Lemma dispatchEnded_Inv (w : World) a : Inv w → Inv (dispatchEnded a w).
Proof.
  intros HI. destruct (heap w !! a) as [nd|] eqn:Hnd.
  2:{ by rewrite dispatchEnded_absent. }
  destruct (endedFired nd) eqn:He.
  { by rewrite (dispatchEnded_fired w a nd). }
  destruct (decide (sourceNodeRef w = Some a)) as [Ha|Ha].
  - destruct (Inv_current w a HI Ha) as (nd0 & Hnd0 & Hc).
    assert (nd0 = nd) as -> by congruence.
    destruct Hc as (Hs & Hst & _ & Ho & Hn).
    rewrite (dispatchEnded_handler w a nd PlaybackEnded) by done.
    split; [|split]; cbn.
    + split; [done|]. by intros [? ?].
    + done.
    + intros b nd' Hb. rewrite bool_decide_eq_false_2 by done.
      destruct (decide (a = b)) as [<-|Hne].
      * rewrite list_lookup_alter_eq, Hnd in Hb. injection Hb as <-.
        left. unfold endNode. repeat split; cbn; try done. by rewrite Hn.
      * rewrite list_lookup_alter_ne in Hb by done.
        apply (Inv_other w b nd' HI Hb). congruence.
  - destruct (Inv_other w a nd HI Hnd Ha) as [(_ & _ & Hf & _)|(Hs & Hst & Ho & Hn)];
      [congruence|].
    rewrite (dispatchEnded_silent w a nd) by done.
    destruct HI as (Hp & Hr & Hall).
    split; [|split]; cbn.
    + done.
    + intros b Hb. destruct (Hr b Hb) as [x Hx].
      destruct (decide (a = b)) as [<-|Hne]; [done|].
      rewrite list_lookup_alter_ne by done. eauto.
    + intros b nd' Hb.
      destruct (decide (a = b)) as [<-|Hne].
      * rewrite bool_decide_eq_false_2 by done.
        rewrite list_lookup_alter_eq, Hnd in Hb. injection Hb as <-.
        right. by repeat split.
      * rewrite list_lookup_alter_ne in Hb by done. by apply Hall.
Qed.

Lemma handleGenerateSpeech_Inv (w : World) :
  Inv w → ∃ w', handleGenerateSpeech w = Ok w' ∧ Inv w'.
Proof.
  intros HI. unfold handleGenerateSpeech. destruct (trim (text w)).
  - eexists. split; [done|]. done.
  - destruct (stopPlayback_Inv (setError EmptyString (setLoading true w)))
      as (w' & Hs & HI' & _); [done|].
    rewrite Hs. cbn. eexists. split; [done|]. done.
Qed.

Lemma handleGenerateSpeech_settle_Inv (w : World) response :
  Inv w → Inv (handleGenerateSpeech_settle response w).
Proof.
  intros HI. unfold handleGenerateSpeech_settle.
  match goal with |- context [match ?a with Ok _ => _ | Throw _ => _ end] =>
    destruct a end; done.
Qed.

(** No event makes a handler throw, and every event keeps the invariant. *)
Lemma step_Inv (ev : Event) (w : World) :
  Inv w → ∃ w', step ev w = Ok w' ∧ Inv w'.
Proof.
  intros HI. destruct ev; cbn [step].
  - eexists. split; [done|]. unfold mount. by destruct (audioContextRef w).
  - eexists. split; [done|]. done.
  - eexists. split; [done|]. done.
  - unfold handleRateChange.
    destruct (stopPlayback_Inv w HI) as (w' & -> & HI' & _).
    eexists. split; [done|]. done.
  - unfold handlePitchChange.
    destruct (stopPlayback_Inv w HI) as (w' & -> & HI' & _).
    eexists. split; [done|]. done.
  - by apply handleGenerateSpeech_Inv.
  - eexists. split; [done|]. by apply handleGenerateSpeech_settle_Inv.
  - by apply handlePlayStop_Inv.
  - eexists. split; [done|]. by apply dispatchEnded_Inv.
Qed.

Lemma run_Inv (evs : list Event) : ∀ w : World,
  Inv w → ∃ w', run evs w = Ok w' ∧ Inv w'.
Proof.
  induction evs as [|ev evs IH]; intros w HI.
  - by exists w.
  - destruct (step_Inv ev w HI) as (w1 & Hs & HI1).
    destruct (IH w1 HI1) as (w' & Hr & HI').
    exists w'. cbn [run]. rewrite Hs. done.
Qed.

Lemma run_Inv_Ok (evs : list Event) (w w' : World) :
  Inv w → run evs w = Ok w' → Inv w'.
Proof.
  intros HI Hr. destruct (run_Inv evs w HI) as (w1 & Hr1 & HI1). congruence.
Qed.

Lemma reachable_Inv (w : World) : reachable w → Inv w.
Proof.
  intros [evs Hr]. apply (run_Inv_Ok evs initialWorld); [apply Inv_initial|done].
Qed.


Lemma settled_trans nd1 nd2 nd3 :
  settled nd1 nd2 → settled nd2 nd3 → settled nd1 nd3.
Proof.
  intros [->| ->] [->| ->]; unfold settled; auto.
Qed.

(** The two outcomes of [stopPlayback] in a state of the invariant. *)
Lemma stopPlayback_cases (w : World) :
  Inv w →
  (sourceNodeRef w = None ∧ stopPlayback w = Ok w) ∨
  (∃ a nd, sourceNodeRef w = Some a ∧ heap w !! a = Some nd ∧ currentNode nd ∧
     stopPlayback w =
     Ok (setIsPlaying false (setSourceNodeRef None
           (setHeap (alter stopNode a (heap w)) w)))).
Proof.
  intros HI. destruct (sourceNodeRef w) as [a|] eqn:Ha.
  - right. destruct (Inv_current w a HI Ha) as (nd & Hnd & Hc).
    exists a, nd. repeat split; try done; try apply Hc.
    apply (stopPlayback_current w a nd); try done. apply Hc.
  - left. split; [done|]. by apply stopPlayback_idle.
Qed.

Lemma handlePlayStop_cases (w : World) :
  (audioContextRef w = None ∧ handlePlayStop w = Ok w) ∨
  (∃ c, audioContextRef w = Some c ∧ isPlaying w = true ∧
     handlePlayStop w = stopPlayback (resumed c w)) ∨
  (∃ c b, audioContextRef w = Some c ∧ isPlaying w = false ∧
     audioBuffer w = Some b ∧
     handlePlayStop w =
     Ok (setIsPlaying true (setSourceNodeRef (Some (length (heap w)))
           (setHeap (heap w ++ [playNode b (rate w) (pitch w)])
              (resumed c w))))) ∨
  (∃ c, audioContextRef w = Some c ∧ isPlaying w = false ∧
     audioBuffer w = None ∧ handlePlayStop w = Ok (resumed c w)).
Proof.
  destruct (audioContextRef w) as [c|] eqn:Hc.
  2:{ left. split; [done|]. unfold handlePlayStop. by rewrite Hc. }
  right. destruct (isPlaying w) eqn:Hp.
  - left. exists c. repeat split. unfold handlePlayStop. rewrite Hc.
    fold (resumed c w). replace (isPlaying (resumed c w)) with true; [done|].
    by destruct c.
  - right. destruct (audioBuffer w) as [b|] eqn:Hb.
    + left. exists c, b. repeat split. by apply handlePlayStop_play.
    + right. exists c. repeat split. unfold handlePlayStop. rewrite Hc.
      fold (resumed c w).
      replace (isPlaying (resumed c w)) with false by (by destruct c).
      replace (audioBuffer (resumed c w)) with (@None AudioBuffer); [done|].
      by destruct c.
Qed.

Lemma Inv_resumed c (w : World) : Inv w → Inv (resumed c w).
Proof. by destruct c. Qed.

(** A node that is not the current one is left alone by [stopPlayback]. *)
Lemma stopPlayback_other (w w' : World) a nd :
  Inv w → stopPlayback w = Ok w' → heap w !! a = Some nd →
  sourceNodeRef w ≠ Some a →
  heap w' !! a = Some nd ∧ sourceNodeRef w' = None.
Proof.
  intros HI Hs Hnd Ha.
  destruct (stopPlayback_cases w HI) as [(Hr & E)|(b & ndb & Hr & _ & _ & E)];
    rewrite E in Hs; injection Hs as <-.
  - done.
  - cbn. split; [|done]. rewrite list_lookup_alter_ne; [done|congruence].
Qed.

(** Once a node is no longer current, no event changes anything about it
    but the platform's [endedFired] mark, and it never becomes current
    again. *)
Lemma step_other (ev : Event) (w w' : World) a nd :
  Inv w → step ev w = Ok w' → heap w !! a = Some nd →
  sourceNodeRef w ≠ Some a →
  ∃ nd', heap w' !! a = Some nd' ∧ settled nd nd' ∧ sourceNodeRef w' ≠ Some a.
Proof.
  intros HI Hs Hnd Ha.
  assert (∀ w1 : World, stopPlayback w = Ok w1 →
    heap w1 !! a = Some nd ∧ sourceNodeRef w1 ≠ Some a) as Hstop.
  { intros w1 E. destruct (stopPlayback_other w w1 a nd HI E Hnd Ha) as [? Hn].
    split; [done|]. by rewrite Hn. }
  destruct ev; cbn [step] in Hs.
  - injection Hs as <-. exists nd. unfold mount.
    destruct (audioContextRef w); repeat split; try done; by left.
  - injection Hs as <-. exists nd. repeat split; try done; by left.
  - injection Hs as <-. exists nd. repeat split; try done; by left.
  - unfold handleRateChange in Hs. destruct (stopPlayback w) as [w1|] eqn:E; [|done].
    injection Hs as <-. destruct (Hstop w1 eq_refl). exists nd.
    repeat split; try done; by left.
  - unfold handlePitchChange in Hs. destruct (stopPlayback w) as [w1|] eqn:E; [|done].
    injection Hs as <-. destruct (Hstop w1 eq_refl). exists nd.
    repeat split; try done; by left.
  - unfold handleGenerateSpeech in Hs. destruct (trim (text w)).
    + injection Hs as <-. exists nd. repeat split; try done; by left.
    + destruct (stopPlayback (setError EmptyString (setLoading true w))) as [w1|] eqn:E;
        [|done].
      injection Hs as <-.
      destruct (stopPlayback_other (setError EmptyString (setLoading true w)) w1 a nd)
        as [? Hn]; try done.
      exists nd. cbn. rewrite Hn. repeat split; try done; by left.
  - injection Hs as <-. exists nd. unfold handleGenerateSpeech_settle.
    match goal with |- context [match ?x with Ok _ => _ | Throw _ => _ end] =>
      destruct x end; repeat split; try done; by left.
  - destruct (handlePlayStop_cases w)
      as [(_ & E)|[(c & _ & _ & E)|[(c & b & _ & Hp & _ & E)|(c & _ & _ & _ & E)]]];
      rewrite E in Hs.
    + injection Hs as <-. exists nd. repeat split; try done; by left.
    + destruct (stopPlayback_other (resumed c w) w' a nd) as [? Hn];
        try done; try (by destruct c).
      exists nd. rewrite Hn. repeat split; try done; by left.
    + injection Hs as <-. exists nd. cbn.
      pose proof (lookup_lt_Some _ _ _ Hnd) as Hlt.
      rewrite lookup_app_l by done. repeat split; try done; [by left|].
      intros [= E']. lia.
    + injection Hs as <-. exists nd. destruct c; repeat split; try done; by left.
  - injection Hs as <-. rename a0 into b.
    destruct (heap w !! b) as [ndb|] eqn:Hb.
    2:{ rewrite dispatchEnded_absent by done. exists nd.
        repeat split; try done; by left. }
    destruct (endedFired ndb) eqn:He.
    { rewrite (dispatchEnded_fired w b ndb) by done. exists nd.
      repeat split; try done; by left. }
    destruct (decide (sourceNodeRef w = Some b)) as [Hcur|Hcur].
    + destruct (Inv_current w b HI Hcur) as (nd0 & Hnd0 & Hc).
      assert (nd0 = ndb) as -> by congruence.
      destruct Hc as (Hst & _ & _ & Ho & _).
      rewrite (dispatchEnded_handler w b ndb PlaybackEnded) by done.
      exists nd. cbn. rewrite list_lookup_alter_ne by congruence.
      repeat split; try done; by left.
    + destruct (Inv_other w b ndb HI Hb Hcur)
        as [(_ & _ & Hf & _)|(Hst & _ & Ho & _)]; [congruence|].
      rewrite (dispatchEnded_silent w b ndb) by done. cbn.
      destruct (decide (b = a)) as [->|Hne].
      * rewrite list_lookup_alter_eq, Hnd. cbn. eexists. split; [done|].
        split; [|done]. right. congruence.
      * rewrite list_lookup_alter_ne by done. exists nd.
        repeat split; try done; by left.
Qed.

Lemma run_other (evs : list Event) : ∀ (w w' : World) a nd,
  Inv w → run evs w = Ok w' → heap w !! a = Some nd →
  sourceNodeRef w ≠ Some a →
  ∃ nd', heap w' !! a = Some nd' ∧ settled nd nd' ∧ sourceNodeRef w' ≠ Some a.
Proof.
  induction evs as [|ev evs IH]; intros w w' a nd HI Hr Hnd Ha.
  - injection Hr as <-. exists nd. repeat split; try done; by left.
  - cbn [run] in Hr. destruct (step_Inv ev w HI) as (w1 & Hs & HI1).
    rewrite Hs in Hr. cbn in Hr.
    destruct (step_other ev w w1 a nd HI Hs Hnd Ha) as (nd1 & Hnd1 & Hset1 & Ha1).
    destruct (IH w1 w' a nd1 HI1 Hr Hnd1 Ha1) as (nd' & Hnd' & Hset' & Ha').
    exists nd'. repeat split; try done. by apply (settled_trans nd nd1 nd').
Qed.

Lemma not_rendering_other nd : finishedNode nd ∨ stoppedNode nd → rendering nd = false.
Proof.
  unfold rendering. intros [(_ & _ & -> & _)|(_ & -> & _)].
  - by rewrite andb_false_r.
  - by rewrite andb_false_r.
Qed.

Lemma settled_outcome nd nd' :
  settled nd nd' →
  notified nd' = notified nd ∧ stopped nd' = stopped nd ∧
  onended nd' = onended nd ∧ playbackRate nd' = playbackRate nd ∧
  detune nd' = detune nd.
Proof. by intros [->| ->]. Qed.

(** C6. In every reachable state: a node that renders is the one session the
    component holds, so at most one session renders; no node was notified
    more than once, and a node that was stopped was never notified. When the
    current session reaches the end of its buffer, the component becomes
    idle and the session's handler has run once; whatever happens later,
    that count stays one and the session is never marked stopped. *)
Theorem C6_natural_completion (w : World) :
  reachable w →
  (∀ a nd, heap w !! a = Some nd → rendering nd = true →
     sourceNodeRef w = Some a ∧ isPlaying w = true) ∧
  (∀ a nd, heap w !! a = Some nd →
     (notified nd ≤ 1)%nat ∧ (stopped nd = true → notified nd = 0%nat)) ∧
  (∀ a, sourceNodeRef w = Some a →
     isPlaying (dispatchEnded a w) = false ∧
     sourceNodeRef (dispatchEnded a w) = None ∧
     ∀ evs w', run evs (dispatchEnded a w) = Ok w' →
       ∃ nd', heap w' !! a = Some nd' ∧ notified nd' = 1%nat ∧
         stopped nd' = false).
Proof.
  intros Hreach. pose proof (reachable_Inv w Hreach) as HI.
  split; [|split].
  - intros a nd Hnd Hrend.
    destruct (decide (sourceNodeRef w = Some a)) as [Ha|Ha].
    + split; [done|]. destruct HI as (Hp & _). apply Hp. eauto.
    + rewrite (not_rendering_other nd) in Hrend; [done|].
      by apply (Inv_other w a).
  - intros a nd Hnd.
    destruct (decide (sourceNodeRef w = Some a)) as [Ha|Ha].
    + destruct (Inv_current w a HI Ha) as (nd0 & Hnd0 & Hc).
      assert (nd0 = nd) as -> by congruence.
      destruct Hc as (_ & Hst & _ & _ & Hn). rewrite Hn, Hst. split; [lia|done].
    + destruct (Inv_other w a nd HI Hnd Ha)
        as [(_ & Hst & _ & Hn)|(_ & _ & _ & Hn)]; rewrite Hn.
      * rewrite Hst. split; [lia|done].
      * split; [lia|done].
  - intros a Ha. destruct (Inv_current w a HI Ha) as (nd & Hnd & Hc).
    destruct Hc as (Hs & Hst & He & Ho & Hn).
    rewrite (dispatchEnded_handler w a nd PlaybackEnded) by done.
    split; [done|]. split; [done|].
    intros evs w' Hrun.
    assert (Inv (runClosure PlaybackEnded (setHeap (alter endNode a (heap w)) w)))
      as HI'.
    { rewrite <- (dispatchEnded_handler w a nd PlaybackEnded) by done.
      by apply dispatchEnded_Inv. }
    destruct (run_other evs _ w' a (endNode nd) HI' Hrun) as (nd' & Hnd' & Hset & _).
    { cbn. by rewrite list_lookup_alter_eq, Hnd. }
    { done. }
    exists nd'. split; [done|].
    destruct (settled_outcome _ _ Hset) as (-> & -> & _).
    cbn. by rewrite Hn, Hst.
Qed.

(** C7. In every reachable state [stopPlayback] returns without throwing;
    calling it again changes nothing; with no current session it changes
    nothing at all; it runs no handler, and the session it stopped is never
    notified afterwards, whatever events follow. *)
Theorem C7_stop_idempotent (w : World) :
  reachable w →
  ∃ w1, stopPlayback w = Ok w1 ∧ stopPlayback w1 = Ok w1 ∧
    (sourceNodeRef w = None → w1 = w) ∧
    (∀ a nd, heap w !! a = Some nd →
       ∃ nd1, heap w1 !! a = Some nd1 ∧ notified nd1 = notified nd) ∧
    (∀ a, sourceNodeRef w = Some a → ∀ evs w2, run evs w1 = Ok w2 →
       ∃ nd2, heap w2 !! a = Some nd2 ∧ notified nd2 = 0%nat ∧
         stopped nd2 = true).
Proof.
  intros Hreach. pose proof (reachable_Inv w Hreach) as HI.
  destruct (stopPlayback_cases w HI) as [(Hr & E)|(c & ndc & Hr & Hc & Hcur & E)].
  - exists w. repeat split; try done.
    + intros a nd Hnd. by exists nd.
    + intros a Ha. congruence.
  - eexists. split; [exact E|].
    split; [by apply stopPlayback_idle|].
    split; [congruence|]. split.
    + intros a nd Hnd. cbn. destruct (decide (c = a)) as [<-|Hne].
      * rewrite list_lookup_alter_eq, Hnd. cbn. eexists. split; [done|]. done.
      * rewrite list_lookup_alter_ne by done. by exists nd.
    + intros a Ha evs w2 Hrun. assert (a = c) as -> by congruence.
      pose proof (Inv_stopped w c ndc HI Hr Hc) as HI1.
      destruct (run_other evs _ w2 c (stopNode ndc) HI1 Hrun)
        as (nd2 & Hnd2 & Hset & _).
      { cbn. by rewrite list_lookup_alter_eq, Hc. }
      { done. }
      exists nd2. split; [done|].
      destruct (settled_outcome _ _ Hset) as (-> & -> & _).
      cbn. split; [apply Hcur|done].
Qed.

(** C8. Starting playback hands the pitch, times 100, to the [detune]
    control of the new node and the rate, unchanged, to its [playbackRate]
    control: each control receives one parameter and is not affected by the
    other. *)
Theorem C8_pitch_in_cents (w : World) (c : ContextState) (b : AudioBuffer) :
  audioContextRef w = Some c → isPlaying w = false → audioBuffer w = Some b →
  ∃ w' nd, handlePlayStop w = Ok w' ∧ isPlaying w' = true ∧
    sourceNodeRef w' = Some (length (heap w)) ∧
    heap w' !! length (heap w) = Some nd ∧
    detune nd = pitch w * 100 ∧ playbackRate nd = rate w ∧
    buffer nd = Some b ∧ started nd = true.
Proof.
  intros Hc Hp Hb. eexists _, (playNode b (rate w) (pitch w)).
  split; [by apply (handlePlayStop_play w c b)|]. cbn.
  repeat split. by rewrite lookup_app_r, Nat.sub_diag by lia.
Qed.

Lemma sessionEnded_stopPlayback (w w1 : World) :
  Inv w → stopPlayback w = Ok w1 →
  sessionEnded w w1 ∧ rate w1 = rate w ∧ pitch w1 = pitch w.
Proof.
  intros HI E.
  destruct (stopPlayback_Inv w HI) as (w1' & E' & HI1 & Hp1 & Hr1).
  assert (w1' = w1) as -> by congruence.
  assert (∀ a nd, heap w1 !! a = Some nd → rendering nd = false) as Hquiet.
  { intros a nd Hnd. apply not_rendering_other, (Inv_other w1 a nd HI1 Hnd).
    congruence. }
  destruct (stopPlayback_cases w HI) as [(Hr & Es)|(c & ndc & Hr & Hc & Hcur & Es)];
    rewrite Es in E; injection E as <-.
  - repeat split; try done. intros a nd Hnd. exists nd.
    repeat split; try done; congruence.
  - repeat split; try done. intros a nd Hnd. cbn.
    destruct (decide (c = a)) as [<-|Hne].
    + rewrite list_lookup_alter_eq, Hnd. cbn. eexists. split; [done|].
      repeat split; done.
    + rewrite list_lookup_alter_ne by done. exists nd.
      repeat split; try done; congruence.
Qed.

(** C10. In every reachable state a rate change and a pitch change stop the
    current session before they store the new value: afterwards nothing
    plays and no node renders, the node that was current is stopped with
    its handler detached and was not notified, and no existing node had its
    rate or detune touched; the new value reaches a node at the next play. *)
Theorem C10_parameter_change_stops (w : World) :
  reachable w →
  (∀ value : Q, ∃ w', handleRateChange value w = Ok w' ∧
     rate w' = value ∧ pitch w' = pitch w ∧ sessionEnded w w' ∧
     ∀ c b, audioContextRef w' = Some c → audioBuffer w' = Some b →
       ∃ w'' nd, handlePlayStop w' = Ok w'' ∧
         heap w'' !! length (heap w') = Some nd ∧ playbackRate nd = value) ∧
  (∀ value : Z, ∃ w', handlePitchChange value w = Ok w' ∧
     pitch w' = value ∧ rate w' = rate w ∧ sessionEnded w w' ∧
     ∀ c b, audioContextRef w' = Some c → audioBuffer w' = Some b →
       ∃ w'' nd, handlePlayStop w' = Ok w'' ∧
         heap w'' !! length (heap w') = Some nd ∧ detune nd = value * 100).
Proof.
  intros Hreach. pose proof (reachable_Inv w Hreach) as HI.
  destruct (stopPlayback_Inv w HI) as (w1 & E & HI1 & Hp1 & Hr1).
  destruct (sessionEnded_stopPlayback w w1 HI E) as (Hend & Hrate & Hpitch).
  split; intros value.
  - exists (setRate value w1). unfold handleRateChange. rewrite E.
    repeat split; try done; try apply Hend.
    intros c b Hc Hb. eexists _, (playNode b value (pitch w1)).
    split; [by apply (handlePlayStop_play (setRate value w1) c b)|]. cbn.
    split; [|done]. by rewrite lookup_app_r, Nat.sub_diag by lia.
  - exists (setPitch value w1). unfold handlePitchChange. rewrite E.
    repeat split; try done; try apply Hend.
    intros c b Hc Hb. eexists _, (playNode b (rate w1) value).
    split; [by apply (handlePlayStop_play (setPitch value w1) c b)|]. cbn.
    split; [|done]. by rewrite lookup_app_r, Nat.sub_diag by lia.
Qed.

(** ** Failures of the audio pipeline *)

Lemma settle_failure (w : World) base64Audio e :
  wavOfResponse base64Audio = Throw e →
  handleGenerateSpeech_settle (Ok base64Audio) w
  = setLoading false (setError (failureText e) w).
Proof.
  intros E. unfold handleGenerateSpeech_settle. cbn [mbind result_bind].
  by rewrite E.
Qed.

Lemma wavOfResponse_nonempty (base64 : string) :
  base64 ≠ EmptyString →
  wavOfResponse (Some base64) =
  (decodedBytes ← decode base64;
   pcmData ← Int16Array decodedBytes;
   wavBlob ← pcmToWavBlob pcmData 24000 1;
   Ok (blobBytes wavBlob)).
Proof. intros Hne. unfold wavOfResponse. by destruct base64. Qed.

(** What the code does with a response that decodes to zero bytes: the
    reinterpretation and the encoder accept them, and the 44-byte file goes
    to [decodeAudioData], whose answer decides the outcome. *)
Lemma empty_buffer_outcome (w : World) (base64 : string) :
  base64 ≠ EmptyString → decode base64 = Ok [] →
  is_Some (audioContextRef w) →
  handleGenerateSpeech_settle (Ok (Some base64)) w
  = setLoading false
      match decodeAudioData (headerBytes 0 24000 1) with
      | Ok decodedAudioBuffer => setAudioBuffer (Some decodedAudioBuffer) w
      | Throw e => setError (failureText e) w
      end.
Proof.
  intros Hne Hd [c Hc]. unfold handleGenerateSpeech_settle.
  cbn [mbind result_bind]. rewrite wavOfResponse_nonempty, Hd by done.
  cbn [mbind result_bind]. change (Int16Array []) with (Ok (@nil Z)).
  cbn [mbind result_bind]. rewrite pcmToWavBlob_layout.
  cbn [mbind result_bind blobBytes]. by rewrite Hc.
Qed.

End AppProofs.

(** ** The claims at concrete inputs *)

Lemma playing_run : run sampleRun initialWorld = Ok playingWorld.
Proof. reflexivity. Qed.

Lemma playingWorld_reachable : reachable playingWorld.
Proof. exists sampleRun. apply playing_run. Qed.

Lemma C6_natural_completion_witness :
  sourceNodeRef playingWorld = Some 0%nat ∧
  isPlaying (dispatchEnded 0 playingWorld) = false ∧
  sourceNodeRef (dispatchEnded 0 playingWorld) = None.
Proof.
  split; [reflexivity|].
  destruct (C6_natural_completion playingWorld playingWorld_reachable)
    as (_ & _ & Hend).
  destruct (Hend 0%nat eq_refl) as (Hidle & Hnone & _).
  split; [exact Hidle|exact Hnone].
Defined.

Lemma C7_stop_idempotent_witness :
  sourceNodeRef playingWorld = Some 0%nat ∧
  ∃ w1, stopPlayback playingWorld = Ok w1 ∧ stopPlayback w1 = Ok w1.
Proof.
  split; [reflexivity|].
  destruct (C7_stop_idempotent playingWorld playingWorld_reachable)
    as (w1 & H1 & H2 & _).
  exists w1. split; [exact H1|exact H2].
Defined.

Lemma C8_pitch_in_cents_witness :
  ∃ w' nd, handlePlayStop readyWorld = Ok w' ∧
    heap w' !! 0%nat = Some nd ∧ detune nd = -1200 ∧
    playbackRate nd = (3 # 2)%Q.
Proof.
  destruct (C8_pitch_in_cents readyWorld running [0; 0] eq_refl eq_refl eq_refl)
    as (w' & nd & Hplay & _ & _ & Hnd & Hdetune & Hrate & _).
  exists w', nd. split; [exact Hplay|]. split; [exact Hnd|].
  split; [exact Hdetune|exact Hrate].
Defined.

Lemma C10_parameter_change_stops_witness :
  isPlaying playingWorld = true ∧
  (∃ w', handleRateChange (1 # 2) playingWorld = Ok w' ∧
     rate w' = (1 # 2)%Q ∧ isPlaying w' = false) ∧
  (∃ w', handlePitchChange 7 playingWorld = Ok w' ∧ pitch w' = 7 ∧
     isPlaying w' = false).
Proof.
  split; [reflexivity|].
  destruct (C10_parameter_change_stops playingWorld playingWorld_reachable)
    as (Hrate & Hpitch).
  split.
  - destruct (Hrate (1 # 2)%Q) as (w' & E & Hr & _ & (Hidle & _) & _).
    exists w'. split; [exact E|]. split; [exact Hr|exact Hidle].
  - destruct (Hpitch 7) as (w' & E & Hp & _ & (Hidle & _) & _).
    exists w'. split; [exact E|]. split; [exact Hp|exact Hidle].
Defined.

(** * Further properties of the helpers *)

(** ** Samples and bytes *)

Lemma int16Elements_payloadBytes pcm :
  int16Elements (payloadBytes pcm) = map ToInt16 pcm.
Proof.
  induction pcm as [|s pcm IH]; [done|].
  unfold payloadBytes. cbn [map concat]. fold (payloadBytes pcm).
  unfold rawBytes at 1. cbn [seq map app int16Elements].
  rewrite IH. f_equal.
  change [byteAt (ToInt16 s) 0; byteAt (ToInt16 s) 1]
    with (rawBytes 2 (ToInt16 s)).
  rewrite fromBytes_rawBytes2, <- ToUint16_mod.
  rewrite ToInt16_ToUint16. apply ToInt16_id, ToInt16_range.
Qed.

Lemma map_ToInt16_id pcm :
  Forall (λ s, -32768 ≤ s < 32768) pcm → map ToInt16 pcm = pcm.
Proof.
  induction 1 as [|s pcm Hs _ IH]; [done|].
  cbn [map]. by rewrite IH, ToInt16_id.
Qed.

Lemma charCode_range c : 0 ≤ charCode c < 256.
Proof. unfold charCode. pose proof (N_ascii_bounded c). lia. Qed.

Lemma ToUint8_charCode c : ToUint8 (charCode c) = charCode c.
Proof. rewrite ToUint8_mod. apply Z.mod_small, charCode_range. Qed.

Lemma byte_pair lo hi :
  0 ≤ lo < 256 → 0 ≤ hi < 256 →
  rawBytes 2 (ToInt16 (ToInt16 (fromBytes [lo; hi]))) = [lo; hi].
Proof.
  intros Hlo Hhi. rewrite rawBytes2_ToInt16.
  assert (fromBytes [lo; hi] = lo + 256 * hi) as E.
  { cbn [fromBytes]. rewrite !lor_shiftl_add by lia. lia. }
  pose proof (byteAt_ToInt16 (fromBytes [lo; hi]) 0 ltac:(lia)) as B0.
  pose proof (byteAt_ToInt16 (fromBytes [lo; hi]) 1 ltac:(lia)) as B1.
  rewrite !byteAt_div in B0, B1.
  change (2 ^ (8 * Z.of_nat 0)) with 1 in *.
  change (2 ^ (8 * Z.of_nat 1)) with 256 in *.
  rewrite !Z.div_1_r in B0. rewrite B0, B1, E.
  replace (lo + 256 * hi) with (lo + hi * 256) by lia.
  rewrite Z.mod_add, Z.div_add by lia.
  rewrite (Z.div_small lo), Z.add_0_l by lia.
  by rewrite !Z.mod_small by lia.
Qed.

Lemma payloadBytes_int16Elements k : ∀ buffer : list Z,
  length buffer = (2 * k)%nat → Forall (λ b, 0 ≤ b < 256) buffer →
  payloadBytes (int16Elements buffer) = buffer.
Proof.
  induction k as [|k IH]; intros buffer Hlen Hb.
  - by destruct buffer.
  - destruct buffer as [|lo [|hi rest]]; cbn [length] in Hlen; try lia.
    apply Forall_cons in Hb as [Hlo Hb]. apply Forall_cons in Hb as [Hhi Hb].
    cbn [int16Elements]. unfold payloadBytes. cbn [map concat].
    fold (payloadBytes (int16Elements rest)).
    rewrite byte_pair by done. rewrite IH by (done || lia). done.
Qed.

(** X1. Reinterpreting the payload of the file as 16-bit samples gives
    the samples back, each converted by [ToInt16]; samples that are 16-bit
    values (as the elements of an [Int16Array] are) come back unchanged. *)
Theorem payload_round_trip (pcmData : list Z) (sampleRate numChannels : Z) :
  ∃ blob, pcmToWavBlob pcmData sampleRate numChannels = Ok blob ∧
    Int16Array (drop 44 (blobBytes blob)) = Ok (map ToInt16 pcmData) ∧
    (Forall (λ s, -32768 ≤ s < 32768) pcmData →
       Int16Array (drop 44 (blobBytes blob)) = Ok pcmData).
Proof.
  eexists. split; [apply pcmToWavBlob_layout|]. cbn [blobBytes].
  rewrite drop_app_length' by reflexivity.
  assert (Int16Array (payloadBytes pcmData) = Ok (map ToInt16 pcmData)) as E.
  { unfold Int16Array. rewrite length_payloadBytes.
    rewrite Nat.Div0.mod_mul. cbn. by rewrite int16Elements_payloadBytes. }
  split; [done|]. intros Hr. by rewrite E, map_ToInt16_id.
Qed.

Lemma payload_round_trip_witness :
  ∃ blob, pcmToWavBlob [0; -1; 256; -32768; 32767] 24000 1 = Ok blob ∧
    Int16Array (drop 44 (blobBytes blob)) = Ok [0; -1; 256; -32768; 32767].
Proof.
  destruct (payload_round_trip [0; -1; 256; -32768; 32767] 24000 1)
    as (blob & Hb & _ & Hr).
  exists blob. split; [exact Hb|]. apply Hr.
  repeat (apply Forall_cons; split; [lia|]). apply Forall_nil. done.
Defined.

Lemma Forall_byte_rawBytes w v : Forall (λ b, 0 ≤ b < 256) (rawBytes w v).
Proof. unfold rawBytes. apply Forall_map, Forall_forall. intros k _. apply byteAt_range. Qed.

Lemma Forall_byte_codes s : Forall (λ b, 0 ≤ b < 256) (codes s).
Proof. unfold codes. apply Forall_map, Forall_forall. intros c _. apply charCode_range. Qed.

Lemma Forall_byte_payload pcm : Forall (λ b, 0 ≤ b < 256) (payloadBytes pcm).
Proof.
  induction pcm as [|s pcm IH]; [constructor|].
  unfold payloadBytes. cbn [map concat]. apply Forall_app.
  split; [apply Forall_byte_rawBytes|exact IH].
Qed.

(** Whatever the sample rate, the channel count and the sample values
    are, every element of the encoder's output is a byte. *)
Theorem output_is_bytes (pcmData : list Z) (sampleRate numChannels : Z) :
  ∃ blob, pcmToWavBlob pcmData sampleRate numChannels = Ok blob ∧
    Forall (λ b, 0 ≤ b < 256) (blobBytes blob).
Proof.
  eexists. split; [apply pcmToWavBlob_layout|]. cbn [blobBytes].
  apply Forall_app. split; [|apply Forall_byte_payload].
  unfold headerBytes.
  repeat (apply Forall_app; split);
    (apply Forall_byte_rawBytes || apply Forall_byte_codes).
Qed.

(** X2. On inputs that fit the container (16-bit samples, a sample rate
    below 2^32, a channel count below 2^16) the encoder is injective: two
    different inputs never give the same file. *)
Theorem encoder_injective (pcm pcm' : list Z) (sr sr' nc nc' : Z) :
  Forall (λ s, -32768 ≤ s < 32768) pcm →
  Forall (λ s, -32768 ≤ s < 32768) pcm' →
  0 ≤ sr < 2 ^ 32 → 0 ≤ sr' < 2 ^ 32 → 0 ≤ nc < 2 ^ 16 → 0 ≤ nc' < 2 ^ 16 →
  pcmToWavBlob pcm sr nc = pcmToWavBlob pcm' sr' nc' →
  pcm = pcm' ∧ sr = sr' ∧ nc = nc'.
Proof.
  intros Hp Hp' Hsr Hsr' Hnc Hnc'. rewrite !pcmToWavBlob_layout.
  intros E.
  apply (f_equal (λ r, match r with Ok b => blobBytes b | Throw _ => [] end))
    in E.
  cbn beta iota delta [blobBytes] in E.
  apply app_inj_1 in E as [Eh Ep]; [|reflexivity].
  split; [|split].
  - apply (f_equal int16Elements) in Ep.
    rewrite !int16Elements_payloadBytes in Ep.
    by rewrite !map_ToInt16_id in Ep.
  - destruct (header_fields (length pcm) sr nc [])
      as (_ & _ & _ & _ & _ & _ & _ & H24 & _).
    destruct (header_fields (length pcm') sr' nc' [])
      as (_ & _ & _ & _ & _ & _ & _ & H24' & _).
    cbv zeta in *. rewrite Eh, H24' in H24. injection H24 as E24.
    rewrite !Z.mod_small in E24 by lia. done.
  - destruct (header_fields (length pcm) sr nc [])
      as (_ & _ & _ & _ & _ & _ & H22 & _).
    destruct (header_fields (length pcm') sr' nc' [])
      as (_ & _ & _ & _ & _ & _ & H22' & _).
    cbv zeta in *. rewrite Eh, H22' in H22. injection H22 as E22.
    rewrite !Z.mod_small in E22 by lia. done.
Qed.

Lemma encoder_injective_witness :
  [1; 2] = [1; 2] ∧ 24000 = 24000 ∧ 1 = 1.
Proof.
  apply (encoder_injective [1; 2] [1; 2] 24000 24000 1 1);
    try lia; try reflexivity;
    repeat (apply Forall_cons; split; [lia|]); apply Forall_nil; done.
Defined.

(** ** [decode] and the pipeline *)

Lemma decodeLoop_app (rest : string) : ∀ pre : list Z,
  decodeLoop (pre ++ replicate (String.length rest) 0) (length pre) rest
  = pre ++ map charCode (list_ascii_of_string rest).
Proof.
  induction rest as [|c rest IH]; intros pre.
  - done.
  - cbn [decodeLoop String.length replicate list_ascii_of_string map].
    unfold storeUint8. rewrite ToUint8_charCode.
    rewrite insert_app_r_alt by lia. rewrite Nat.sub_diag. cbn [insert list_insert].
    replace (S (length pre)) with (length (pre ++ [charCode c]))
      by (rewrite length_app; cbn; lia).
    rewrite (cons_middle (charCode c)), (assoc_L (++)).
    rewrite IH. by rewrite <- (assoc_L (++)).
Qed.

Lemma Int16Array_even (buffer : list Z) (k : nat) :
  length buffer = (2 * k)%nat → Int16Array buffer = Ok (int16Elements buffer).
Proof.
  intros Hk. unfold Int16Array.
  replace (length buffer `mod` 2)%nat with 0%nat; [done|].
  rewrite Hk, Nat.mul_comm. by rewrite Nat.Div0.mod_mul.
Qed.

Section Pipeline.
Context `{Platform}.

(** X3. [decode] returns one byte per character of the binary string that
    [atob] produced, namely its character code, and passes on whatever
    [atob] throws. *)
Theorem decode_bytes (base64 : string) :
  match atob base64 with
  | Ok binaryString =>
      ∃ bytes, decode base64 = Ok bytes ∧
        bytes = map charCode (list_ascii_of_string binaryString) ∧
        length bytes = String.length binaryString ∧
        Forall (λ b, 0 ≤ b < 256) bytes
  | Throw e => decode base64 = Throw e
  end.
Proof.
  unfold decode. destruct (atob base64) as [bin|e]; [|done].
  cbn [mbind result_bind]. unfold Uint8Array.
  pose proof (decodeLoop_app bin []) as E. cbn [app length] in E.
  rewrite E. eexists. split; [done|]. split; [done|]. split.
  - rewrite length_map. clear E. induction bin as [|c bin IH]; [done|].
    cbn. by rewrite IH.
  - apply Forall_map, Forall_forall. intros c _. apply charCode_range.
Qed.

Lemma decode_Ok (base64 bin : string) :
  atob base64 = Ok bin →
  decode base64 = Ok (map charCode (list_ascii_of_string bin)).
Proof.
  intros E. pose proof (decode_bytes base64) as D. rewrite E in D.
  destruct D as (bytes & Hd & -> & _). exact Hd.
Qed.

(** X4. When the response carries a base64 text that decodes to an even
    number of bytes, the file handed to the audio decoder is the 44-byte
    header for that many bytes, at 24000 Hz and one channel, followed by
    the decoded bytes themselves, unchanged. *)
Theorem pipeline_copies_bytes (base64 bin : string) (k : nat) :
  base64 ≠ EmptyString → atob base64 = Ok bin →
  String.length bin = (2 * k)%nat →
  wavOfResponse (Some base64)
  = Ok (headerBytes k 24000 1 ++ map charCode (list_ascii_of_string bin)).
Proof.
  intros Hne Hbin Hk.
  pose proof (decode_bytes base64) as D. rewrite Hbin in D.
  destruct D as (bytes & Hd & Hbytes_eq & Hlen & Hbytes).
  rewrite wavOfResponse_nonempty, Hd by done. cbn [mbind result_bind].
  rewrite <- Hbytes_eq. rewrite Hk in Hlen.
  rewrite (Int16Array_even bytes k Hlen). cbn [mbind result_bind].
  rewrite pcmToWavBlob_layout. cbn [mbind result_bind blobBytes].
  rewrite (length_int16Elements k bytes Hlen).
  by rewrite (payloadBytes_int16Elements k bytes Hlen Hbytes).
Qed.

End Pipeline.

Lemma pipeline_copies_bytes_witness :
  @wavOfResponse referencePlatform (Some "AAD//wABgAA="%string)
  = Ok (headerBytes 4 24000 1 ++ [0; 0; 255; 255; 0; 1; 128; 0]).
Proof.
  exact (@pipeline_copies_bytes referencePlatform "AAD//wABgAA="
           (string_of_list_ascii
              (map (λ b, ascii_of_N (Z.to_N b)) [0; 0; 255; 255; 0; 1; 128; 0]))
           4 ltac:(discriminate) eq_refl eq_refl).
Defined.

(** ** The component over all runs *)

Lemma trimStart_nil (s : list Z) :
  trimStart s = [] ↔ Forall (λ c, isWhiteSpace c = true) s.
Proof.
  induction s as [|c s IH]; [done|]. cbn [trimStart].
  destruct (isWhiteSpace c) eqn:E.
  - rewrite IH. split; [by constructor|]. by intros [_ ?]%Forall_cons.
  - split; [done|]. intros [? _]%Forall_cons. congruence.
Qed.

Lemma trimStart_head (s : list Z) c rest :
  trimStart s = c :: rest → isWhiteSpace c = false.
Proof.
  induction s as [|d s IH]; [done|]. cbn [trimStart].
  destruct (isWhiteSpace d) eqn:E; [done|]. by intros [= <- _].
Qed.

Lemma trim_nil (s : list Z) :
  trim s = [] ↔ Forall (λ c, isWhiteSpace c = true) s.
Proof.
  unfold trim. split.
  - intros E. apply (f_equal reverse) in E. rewrite reverse_involutive in E.
    cbn in E. apply trimStart_nil in E. rewrite Forall_reverse in E.
    apply trimStart_nil. destruct (trimStart s) as [|c rest] eqn:Es; [done|].
    apply trimStart_head in Es. apply Forall_cons in E as [? _]. congruence.
  - intros E. apply trimStart_nil in E. by rewrite E.
Qed.

Section Runs.
Context `{Platform}.

(** X6. No sequence of events makes a handler throw: [start] is never
    called on a node that was started, [stop] never on one that was not. *)
Theorem handlers_never_throw (evs : list Event) :
  ∃ w : World, run evs initialWorld = Ok w.
Proof.
  destruct (run_Inv evs initialWorld Inv_initial) as (w & Hr & _). eauto.
Qed.

Lemma stopPlayback_fields (w w1 : World) :
  stopPlayback w = Ok w1 →
  sourceNodeRef w1 = None ∧ text w1 = text w ∧ loading w1 = loading w ∧
  error w1 = error w ∧ selectedVoice w1 = selectedVoice w ∧
  rate w1 = rate w ∧ pitch w1 = pitch w ∧ audioBuffer w1 = audioBuffer w ∧
  audioContextRef w1 = audioContextRef w ∧
  (isPlaying w1 = false ∨ w1 = w).
Proof.
  unfold stopPlayback, nodeStop. destruct (sourceNodeRef w) as [a|] eqn:Ha.
  - cbn. destruct (alter (setOnended None) a (heap w) !! a) as [nd|]; [|done].
    destruct (started nd); [|done]. cbn. intros [= <-]. cbn.
    repeat split; by left.
  - intros [= <-]. repeat split; try done. by right.
Qed.

Lemma bufferInv_step (ev : Event) (w w' : World) :
  Inv w → bufferInv w → step ev w = Ok w' → bufferInv w'.
Proof.
  intros HI [Hl Hp] Hs.
  assert (∀ w1 : World, stopPlayback w = Ok w1 → isPlaying w1 = false) as Hidle.
  { intros w1 E. destruct (stopPlayback_Inv w HI) as (w2 & E2 & _ & ? & _).
    congruence. }
  destruct ev; cbn [step] in Hs.
  - injection Hs as <-. unfold mount. by destruct (audioContextRef w).
  - by injection Hs as <-.
  - by injection Hs as <-.
  - unfold handleRateChange in Hs. destruct (stopPlayback w) as [w1|] eqn:E; [|done].
    injection Hs as <-. destruct (stopPlayback_fields w w1 E)
      as (_ & _ & El & _ & _ & _ & _ & Eb & _).
    split; cbn; [by rewrite El, Eb|]. rewrite (Hidle w1 eq_refl). done.
  - unfold handlePitchChange in Hs. destruct (stopPlayback w) as [w1|] eqn:E; [|done].
    injection Hs as <-. destruct (stopPlayback_fields w w1 E)
      as (_ & _ & El & _ & _ & _ & _ & Eb & _).
    split; cbn; [by rewrite El, Eb|]. rewrite (Hidle w1 eq_refl). done.
  - unfold handleGenerateSpeech in Hs. destruct (trim (text w)).
    + by injection Hs as <-.
    + destruct (stopPlayback (setError EmptyString (setLoading true w)))
        as [w1|] eqn:E; [|done].
      injection Hs as <-.
      destruct (stopPlayback_Inv (setError EmptyString (setLoading true w)))
        as (w2 & E2 & _ & Hf & _); [done|].
      assert (w2 = w1) as -> by congruence.
      split; cbn; [done|]. by rewrite Hf.
  - injection Hs as <-. unfold handleGenerateSpeech_settle.
    match goal with |- context [match ?x with Ok _ => _ | Throw _ => _ end] =>
      destruct x end; split; cbn; try done; intros _; eauto.
  - destruct (handlePlayStop_cases w)
      as [(_ & E)|[(c & _ & _ & E)|[(c & b & _ & Hi & Hb & E)|(c & _ & Hi & _ & E)]]];
      rewrite E in Hs.
    + by injection Hs as <-.
    + destruct (stopPlayback_fields _ _ Hs)
        as (_ & _ & El & _ & _ & _ & _ & Eb & _).
      destruct (stopPlayback_Inv (resumed c w)) as (w2 & E2 & _ & Hf & _);
        [by apply Inv_resumed|].
      assert (w2 = w') as -> by congruence.
      split; [|by rewrite Hf]. rewrite El, Eb. by destruct c.
    + injection Hs as <-. split; cbn.
      * intros Hl'. assert (loading w = true) as Hlw by (by destruct c).
        rewrite (Hl Hlw) in Hb. done.
      * intros _. replace (audioBuffer (resumed c w)) with (audioBuffer w)
          by (by destruct c). rewrite Hb. eauto.
    + injection Hs as <-. split.
      * replace (loading (resumed c w)) with (loading w) by (by destruct c).
        replace (audioBuffer (resumed c w)) with (audioBuffer w)
          by (by destruct c). done.
      * replace (isPlaying (resumed c w)) with (isPlaying w) by (by destruct c).
        by rewrite Hi.
  - injection Hs as <-. unfold dispatchEnded.
    destruct (heap w !! a) as [nd|]; [|done].
    destruct (started nd && negb (endedFired nd)); [|done].
    destruct (onended nd) as [[]|]; done.
Qed.

Lemma bufferInv_run (evs : list Event) : ∀ w w' : World,
  Inv w → bufferInv w → run evs w = Ok w' → bufferInv w'.
Proof.
  induction evs as [|ev evs IH]; intros w w' HI HB Hr.
  - by injection Hr as <-.
  - cbn [run] in Hr. destruct (step_Inv ev w HI) as (w1 & Hs & HI1).
    rewrite Hs in Hr. cbn in Hr.
    apply (IH w1 w' HI1); [|done]. by apply (bufferInv_step ev w).
Qed.

(** X7. In every reachable state [isPlaying] is true exactly when some node
    renders; while a session plays, the playback block with the Stop button
    is on screen; and while a request is in flight nothing plays and the
    block is hidden. *)
Theorem playing_is_visible (w : World) :
  reachable w →
  (isPlaying w = true ↔ ∃ a nd, heap w !! a = Some nd ∧ rendering nd = true) ∧
  (isPlaying w = true →
     playerVisible w = true ∧ playButtonLabel w = "Stop"%string) ∧
  (loading w = true → isPlaying w = false ∧ playerVisible w = false).
Proof.
  intros Hreach. pose proof (reachable_Inv w Hreach) as HI.
  assert (bufferInv w) as [Hl Hp].
  { destruct Hreach as [evs Hr].
    apply (bufferInv_run evs initialWorld w Inv_initial); [|done].
    split; done. }
  assert (loading w = true → isPlaying w = false) as Hli.
  { intros Hlw. destruct (isPlaying w) eqn:E; [|done].
    destruct (Hp eq_refl) as [b Hb]. rewrite (Hl Hlw) in Hb. done. }
  split; [|split].
  - split.
    + intros Hpl. pose proof HI as (Hiff & _).
      destruct (proj1 Hiff Hpl) as [a Ha].
      destruct (Inv_current w a HI Ha) as (nd & Hnd & Hs & Hst & He & _).
      exists a, nd. split; [done|]. unfold rendering. by rewrite Hs, Hst, He.
    + intros (a & nd & Hnd & Hr).
      destruct (decide (sourceNodeRef w = Some a)) as [Ha|Ha].
      * destruct HI as (Hiff & _). apply Hiff. eauto.
      * rewrite (not_rendering_other nd) in Hr; [done|].
        by apply (Inv_other w a).
  - intros Hpl. unfold playerVisible, playButtonLabel. rewrite Hpl.
    destruct (Hp Hpl) as [b ->]. split; [|done].
    destruct (loading w) eqn:E; [|done]. rewrite (Hli eq_refl) in Hpl. done.
  - intros Hlw. split; [by apply Hli|]. unfold playerVisible.
    by rewrite (Hl Hlw).
Qed.

End Runs.

Lemma playing_is_visible_witness :
  isPlaying playingWorld = true ∧ playerVisible playingWorld = true ∧
  playButtonLabel playingWorld = "Stop"%string.
Proof.
  destruct (playing_is_visible playingWorld playingWorld_reachable)
    as (_ & Hvis & _).
  split; [reflexivity|]. apply Hvis. reflexivity.
Defined.

Section Transport.
Context `{Platform}.

(** X8. Play followed by Stop: the first click starts a new node, the
    second stops it. The component is idle again with its parameters and
    buffer as before, the heap has grown by that one node, stopped and with
    its handler detached, and the [ended] event that the platform sends
    afterwards changes nothing but the node's mark. *)
Theorem play_then_stop (w : World) (c : ContextState) (b : AudioBuffer) :
  audioContextRef w = Some c → isPlaying w = false → audioBuffer w = Some b →
  ∃ w1 w2, handlePlayStop w = Ok w1 ∧ handlePlayStop w1 = Ok w2 ∧
    isPlaying w1 = true ∧ isPlaying w2 = false ∧ sourceNodeRef w2 = None ∧
    heap w2 = heap w ++ [stopNode (playNode b (rate w) (pitch w))] ∧
    rate w2 = rate w ∧ pitch w2 = pitch w ∧ audioBuffer w2 = Some b ∧
    dispatchEnded (length (heap w)) w2
    = setHeap (heap w ++
               [setEndedFired true (stopNode (playNode b (rate w) (pitch w)))])
        w2.
Proof.
  intros Hc Hp Hb.
  set (w1 := setIsPlaying true (setSourceNodeRef (Some (length (heap w)))
        (setHeap (heap w ++ [playNode b (rate w) (pitch w)]) (resumed c w)))).
  assert (handlePlayStop w = Ok w1) as E1 by (by apply handlePlayStop_play).
  destruct (handlePlayStop_cases w1)
    as [(Hn & _)|[(c1 & Hc1 & _ & E2)|[(? & ? & _ & Hf & _)|(? & _ & Hf & _)]]];
    [subst w1; destruct c; cbn in Hn; congruence| |done|done].
  assert (sourceNodeRef (resumed c1 w1) = Some (length (heap w)))
    as Href by (by destruct c1).
  assert (heap (resumed c1 w1) = heap w ++ [playNode b (rate w) (pitch w)])
    as Hheap by (by destruct c1).
  rewrite (stopPlayback_current _ (length (heap w))
             (playNode b (rate w) (pitch w))) in E2;
    [|done|by rewrite Hheap, lookup_app_r, Nat.sub_diag by lia|done].
  rewrite Hheap, alter_snoc in E2.
  eexists w1, _. split; [exact E1|]. split; [exact E2|]. cbn.
  repeat split.
  - by destruct c1, c.
  - by destruct c1, c.
  - destruct c1, c; cbn; by rewrite Hb.
  - rewrite (dispatchEnded_silent _ (length (heap w))
               (stopNode (playNode b (rate w) (pitch w)))); try done.
    + cbn. by rewrite alter_snoc.
    + cbn. by rewrite lookup_app_r, Nat.sub_diag by lia.
Qed.

Lemma stopPlayback_after (w w1 : World) (f : World → World) :
  stopPlayback w = Ok w1 → sourceNodeRef (f w1) = sourceNodeRef w1 →
  stopPlayback (f w1) = Ok (f w1).
Proof.
  intros E Hf. apply stopPlayback_idle. rewrite Hf.
  by destruct (stopPlayback_fields w w1 E) as (-> & _).
Qed.

(** X9. Rate and pitch changes commute, and of two rate changes (or two
    pitch changes) in a row only the last one counts. *)
Theorem parameter_changes_compose (w : World) (r r' : Q) (p p' : Z) :
  (handleRateChange r w ≫= handlePitchChange p)
  = (handlePitchChange p w ≫= handleRateChange r) ∧
  (handleRateChange r w ≫= handleRateChange r') = handleRateChange r' w ∧
  (handlePitchChange p w ≫= handlePitchChange p') = handlePitchChange p' w.
Proof.
  unfold handleRateChange, handlePitchChange.
  destruct (stopPlayback w) as [w1|e] eqn:E; [|done].
  cbn [mbind result_bind].
  rewrite (stopPlayback_after w w1 (setRate r) E eq_refl).
  rewrite (stopPlayback_after w w1 (setPitch p) E eq_refl).
  done.
Qed.

(** X10. Generate with a text made of white space only reports "Please
    enter some text to generate speech." and touches nothing else, so a
    session keeps playing. With any other text, in a reachable state, it
    marks the component as loading, clears the error and the buffer and
    stops the session, keeping text, rate and pitch. *)
Theorem generate_guard (w : World) :
  (blank (text w) → handleGenerateSpeech w = Ok (setError pleaseEnterText w)) ∧
  (¬ blank (text w) → reachable w →
     ∃ w', handleGenerateSpeech w = Ok w' ∧ loading w' = true ∧
       error w' = EmptyString ∧ audioBuffer w' = None ∧
       isPlaying w' = false ∧ sourceNodeRef w' = None ∧
       (∀ a nd, heap w' !! a = Some nd → rendering nd = false) ∧
       text w' = text w ∧ rate w' = rate w ∧ pitch w' = pitch w).
Proof.
  unfold handleGenerateSpeech, blank. split.
  - intros Hb. apply trim_nil in Hb. by rewrite Hb.
  - intros Hb Hreach. destruct (trim (text w)) as [|c rest] eqn:Et.
    { destruct Hb. by apply trim_nil. }
    pose proof (reachable_Inv w Hreach) as HI.
    assert (Inv (setError EmptyString (setLoading true w))) as HI0 by done.
    destruct (stopPlayback_Inv _ HI0) as (w1 & E & HI1 & Hf & Hr).
    rewrite E. cbn [mbind result_bind].
    destruct (stopPlayback_fields _ _ E)
      as (_ & Et1 & El & Ee & _ & Era & Epi & _).
    eexists. split; [done|]. cbn. repeat split; try done.
    intros a nd Hnd. apply not_rendering_other, (Inv_other w1 a nd HI1 Hnd).
    congruence.
Qed.

Lemma cleanup_cases (w : World) :
  Inv w → ∃ h,
    cleanup w = Ok (match audioContextRef w with
                    | Some closed | None => setHeap h w
                    | Some _ => setAudioContextRef (Some closed) (setHeap h w)
                    end) ∧
    match sourceNodeRef w with
    | Some a => h = alter (setStopped true) a (heap w)
    | None => h = heap w
    end.
Proof.
  intros HI. unfold cleanup, nodeStop, updateNode.
  destruct (sourceNodeRef w) as [a|] eqn:Ha.
  - destruct (Inv_current w a HI Ha) as (nd & Hnd & Hs & _).
    rewrite Hnd, Hs. cbn [mbind result_bind audioContextRef setHeap].
    exists (alter (setStopped true) a (heap w)). split; [|done].
    by destruct (audioContextRef w) as [[]|].
  - exists (heap w). split; [|done]. cbn [mbind result_bind].
    assert (setHeap (heap w) w = w) as -> by (by destruct w).
    by destruct (audioContextRef w) as [[]|].
Qed.

(** X11. The cleanup run on unmount, in a reachable state: it does not
    throw, it leaves the audio context closed, and it stops the current
    node so that no node renders any more; unlike [stopPlayback] it leaves
    the node's handler attached and the reference and [isPlaying] as they
    were. *)
Theorem cleanup_stops_output (w : World) :
  reachable w →
  ∃ w', cleanup w = Ok w' ∧
    (is_Some (audioContextRef w) → audioContextRef w' = Some closed) ∧
    (∀ a nd, heap w' !! a = Some nd → rendering nd = false) ∧
    isPlaying w' = isPlaying w ∧ sourceNodeRef w' = sourceNodeRef w ∧
    (∀ a, sourceNodeRef w = Some a →
       ∃ nd, heap w' !! a = Some nd ∧ stopped nd = true ∧
         onended nd = Some PlaybackEnded).
Proof.
  intros Hreach. pose proof (reachable_Inv w Hreach) as HI.
  destruct (cleanup_cases w HI) as (h & E & Hh).
  eexists. split; [exact E|].
  assert (∀ a nd, h !! a = Some nd → rendering nd = false) as Hquiet.
  { intros a nd Hnd. destruct (sourceNodeRef w) as [c|] eqn:Hc; subst h.
    - destruct (decide (c = a)) as [<-|Hne].
      + rewrite list_lookup_alter_eq in Hnd.
        destruct (heap w !! c) as [nd0|]; [|done]. injection Hnd as <-.
        unfold rendering. cbn. by rewrite andb_false_r.
      + rewrite list_lookup_alter_ne in Hnd by done.
        apply not_rendering_other, (Inv_other w a nd HI Hnd). congruence.
    - apply not_rendering_other, (Inv_other w a nd HI Hnd). congruence. }
  split; [|split; [|split; [|split]]].
  - intros [c Hc]. rewrite Hc. by destruct c.
  - intros a nd. by destruct (audioContextRef w) as [[]|]; cbn; apply Hquiet.
  - by destruct (audioContextRef w) as [[]|].
  - by destruct (audioContextRef w) as [[]|].
  - intros a Ha. rewrite Ha in Hh. subst h.
    destruct (Inv_current w a HI Ha) as (nd & Hnd & _ & _ & _ & Ho & _).
    exists (setStopped true nd).
    split; [|by split].
    by destruct (audioContextRef w) as [[]|]; cbn;
      rewrite list_lookup_alter_eq, Hnd.
Qed.

End Transport.

Section Sessions.
Context `{Platform}.

Lemma sameSound_refl (nd : SourceNode) : sameSound nd nd.
Proof. by repeat split. Qed.

Lemma sameSound_trans (nd1 nd2 nd3 : SourceNode) :
  sameSound nd1 nd2 → sameSound nd2 nd3 → sameSound nd1 nd3.
Proof.
  intros (? & ? & ? & ?) (? & ? & ? & ?). repeat split; try congruence. lia.
Qed.

Lemma alter_sameSound (f : SourceNode → SourceNode) (l : list SourceNode) a b nd :
  (∀ x, sameSound x (f x)) → l !! b = Some nd →
  ∃ nd', alter f a l !! b = Some nd' ∧ sameSound nd nd'.
Proof.
  intros Hf Hnd. destruct (decide (a = b)) as [<-|Hne].
  - rewrite list_lookup_alter_eq, Hnd. cbn. eauto.
  - rewrite list_lookup_alter_ne by done. exists nd. split; [done|].
    apply sameSound_refl.
Qed.

Lemma stopPlayback_sameSound (w w1 : World) b nd :
  Inv w → stopPlayback w = Ok w1 → heap w !! b = Some nd →
  ∃ nd', heap w1 !! b = Some nd' ∧ sameSound nd nd'.
Proof.
  intros HI E Hnd.
  destruct (stopPlayback_cases w HI) as [(_ & Es)|(a & nda & _ & _ & _ & Es)];
    rewrite Es in E; injection E as <-.
  - exists nd. split; [done|]. apply sameSound_refl.
  - cbn. apply alter_sameSound; [|done]. intros x. by repeat split.
Qed.

Lemma step_sameSound (ev : Event) (w w' : World) b nd :
  Inv w → step ev w = Ok w' → heap w !! b = Some nd →
  ∃ nd', heap w' !! b = Some nd' ∧ sameSound nd nd'.
Proof.
  intros HI Hs Hnd.
  assert (∃ nd', heap w !! b = Some nd' ∧ sameSound nd nd') as Hsame.
  { exists nd. split; [done|]. apply sameSound_refl. }
  destruct ev; cbn [step] in Hs.
  - injection Hs as <-. unfold mount. by destruct (audioContextRef w).
  - by injection Hs as <-.
  - by injection Hs as <-.
  - unfold handleRateChange in Hs. destruct (stopPlayback w) as [w1|] eqn:E; [|done].
    injection Hs as <-. by apply (stopPlayback_sameSound w w1).
  - unfold handlePitchChange in Hs. destruct (stopPlayback w) as [w1|] eqn:E; [|done].
    injection Hs as <-. by apply (stopPlayback_sameSound w w1).
  - unfold handleGenerateSpeech in Hs. destruct (trim (text w)).
    + by injection Hs as <-.
    + destruct (stopPlayback (setError EmptyString (setLoading true w)))
        as [w1|] eqn:E; [|done].
      injection Hs as <-.
      by apply (stopPlayback_sameSound (setError EmptyString (setLoading true w)) w1).
  - injection Hs as <-. unfold handleGenerateSpeech_settle.
    match goal with |- context [match ?x with Ok _ => _ | Throw _ => _ end] =>
      destruct x end; done.
  - destruct (handlePlayStop_cases w)
      as [(_ & E)|[(c & _ & _ & E)|[(c & b0 & _ & _ & _ & E)|(c & _ & _ & _ & E)]]];
      rewrite E in Hs.
    + by injection Hs as <-.
    + apply (stopPlayback_sameSound (resumed c w) w'); try done;
        by destruct c.
    + injection Hs as <-. cbn. rewrite lookup_app_l; [done|].
      by apply lookup_lt_Some in Hnd.
    + injection Hs as <-. by destruct c.
  - injection Hs as <-.
    destruct (heap w !! a) as [nda|] eqn:Ha.
    2:{ by rewrite dispatchEnded_absent. }
    destruct (endedFired nda) eqn:He.
    { by rewrite (dispatchEnded_fired w a nda). }
    assert (started nda = true) as Hst.
    { destruct (decide (sourceNodeRef w = Some a)) as [Hc|Hc].
      - destruct (Inv_current w a HI Hc) as (x & Hx & ? & _). congruence.
      - by destruct (Inv_other w a nda HI Ha Hc) as [(? & _)|(? & _)]. }
    destruct (onended nda) as [c|] eqn:Ho.
    + rewrite (dispatchEnded_handler w a nda c) by done.
      destruct c. cbn. apply alter_sameSound; [|done].
      intros x. repeat split. cbn. lia.
    + rewrite (dispatchEnded_silent w a nda) by done. cbn.
      apply alter_sameSound; [|done]. intros x. by repeat split.
Qed.

Lemma run_app (evs1 evs2 : list Event) : ∀ w : World,
  run (evs1 ++ evs2) w = run evs1 w ≫= run evs2.
Proof.
  induction evs1 as [|ev evs1 IH]; intros w; [done|].
  cbn [app run]. destruct (step ev w) as [w1|]; [|done]. apply IH.
Qed.

(** X12. Nodes are never dropped and never retuned: whatever events follow,
    a node that is on the heap of a reachable state stays at its address
    with the buffer, the playback rate and the detune it was started with
    (so a rate or pitch change never reaches a running session), and its
    handler count does not decrease. *)
Theorem sessions_keep_parameters (evs : list Event) : ∀ (w w' : World) a nd,
  reachable w → run evs w = Ok w' → heap w !! a = Some nd →
  ∃ nd', heap w' !! a = Some nd' ∧ buffer nd' = buffer nd ∧
    playbackRate nd' = playbackRate nd ∧ detune nd' = detune nd ∧
    (notified nd ≤ notified nd')%nat.
Proof.
  assert (∀ (w w' : World) a nd, Inv w → run evs w = Ok w' →
            heap w !! a = Some nd →
            ∃ nd', heap w' !! a = Some nd' ∧ sameSound nd nd') as Hgen.
  { induction evs as [|ev evs IH]; intros w w' a nd HI Hr Hnd.
    - injection Hr as <-. exists nd. split; [done|]. apply sameSound_refl.
    - cbn [run] in Hr. destruct (step_Inv ev w HI) as (w1 & Hs & HI1).
      rewrite Hs in Hr. cbn in Hr.
      destruct (step_sameSound ev w w1 a nd HI Hs Hnd) as (nd1 & Hnd1 & S1).
      destruct (IH w1 w' a nd1 HI1 Hr Hnd1) as (nd' & Hnd' & S2).
      exists nd'. split; [done|]. by apply (sameSound_trans nd nd1 nd'). }
  intros w w' a nd Hreach Hr Hnd.
  destruct (Hgen w w' a nd (reachable_Inv w Hreach) Hr Hnd)
    as (nd' & Hnd' & ? & ? & ? & ?).
  by exists nd'.
Qed.

End Sessions.

Lemma retuned_run : run retuneRun playingWorld = Ok retunedWorld.
Proof. reflexivity. Qed.

Lemma sessions_keep_parameters_witness :
  ∃ nd nd', heap playingWorld !! 0%nat = Some nd ∧
    heap retunedWorld !! 0%nat = Some nd' ∧
    playbackRate nd' = playbackRate nd ∧ detune nd' = detune nd.
Proof.
  destruct (heap playingWorld !! 0%nat) as [nd|] eqn:Hnd; [|discriminate Hnd].
  destruct (sessions_keep_parameters retuneRun playingWorld retunedWorld
              0%nat nd playingWorld_reachable retuned_run Hnd)
    as (nd' & Hnd' & _ & Hrate & Hdetune & _).
  exists nd, nd'. split; [reflexivity|]. split; [exact Hnd'|].
  split; [exact Hrate|exact Hdetune].
Defined.

Lemma play_then_stop_witness :
  ∃ w1 w2, handlePlayStop readyWorld = Ok w1 ∧ handlePlayStop w1 = Ok w2 ∧
    isPlaying w1 = true ∧ isPlaying w2 = false ∧
    length (heap w2) = 1%nat.
Proof.
  destruct (play_then_stop readyWorld running [0; 0] eq_refl eq_refl eq_refl)
    as (w1 & w2 & E1 & E2 & Hp1 & Hp2 & _ & Hheap & _).
  exists w1, w2. split; [exact E1|]. split; [exact E2|].
  split; [exact Hp1|]. split; [exact Hp2|]. rewrite Hheap. reflexivity.
Defined.

Lemma generate_guard_witness :
  (@handleGenerateSpeech referencePlatform (setText [32; 9; 160] playingWorld)
   = Ok (setError pleaseEnterText (setText [32; 9; 160] playingWorld))) ∧
  ∃ w', handleGenerateSpeech playingWorld = Ok w' ∧ loading w' = true ∧
    isPlaying w' = false.
Proof.
  split.
  - apply (generate_guard (setText [32; 9; 160] playingWorld)).
    repeat (apply Forall_cons; split; [reflexivity|]). apply Forall_nil. done.
  - destruct (generate_guard playingWorld) as (_ & Hgo).
    destruct Hgo as (w' & E & Hl & _ & _ & Hp & _).
    + intros Hb. apply Forall_cons in Hb as [Hc _]. discriminate Hc.
    + apply playingWorld_reachable.
    + exists w'. split; [exact E|]. split; [exact Hl|exact Hp].
Defined.

Lemma cleanup_stops_output_witness :
  ∃ w' nd, cleanup playingWorld = Ok w' ∧
    audioContextRef w' = Some closed ∧ heap w' !! 0%nat = Some nd ∧
    stopped nd = true ∧ onended nd = Some PlaybackEnded.
Proof.
  destruct (cleanup_stops_output playingWorld playingWorld_reachable)
    as (w' & E & Hctx & _ & _ & _ & Hnode).
  destruct (Hnode 0%nat eq_refl) as (nd & Hnd & Hs & Ho).
  exists w', nd. split; [exact E|]. split; [apply Hctx; by eexists|].
  split; [exact Hnd|]. split; [exact Hs|exact Ho].
Defined.

Section Races.
Context `{Platform}.

(** X13. The [ended] event of a node that is not the current session, such
    as a node stopped a moment ago whose event arrives after the next play,
    never touches the component: [isPlaying], the reference and every other
    node stay as they are, and the node itself is at most marked. *)
Theorem stale_ended_ignored (w : World) (a : nat) :
  reachable w → sourceNodeRef w ≠ Some a →
  isPlaying (dispatchEnded a w) = isPlaying w ∧
  sourceNodeRef (dispatchEnded a w) = sourceNodeRef w ∧
  (∀ b, b ≠ a → heap (dispatchEnded a w) !! b = heap w !! b) ∧
  (∀ nd, heap w !! a = Some nd →
     ∃ nd', heap (dispatchEnded a w) !! a = Some nd' ∧ settled nd nd').
Proof.
  intros Hreach Ha. pose proof (reachable_Inv w Hreach) as HI.
  destruct (heap w !! a) as [nd|] eqn:Hnd.
  2:{ rewrite dispatchEnded_absent by done. repeat split; try done. }
  destruct (endedFired nd) eqn:He.
  { rewrite (dispatchEnded_fired w a nd) by done. repeat split; try done.
    intros nd0 [= <-]. exists nd. split; [done|]. by left. }
  destruct (Inv_other w a nd HI Hnd Ha)
    as [(_ & _ & Hf & _)|(Hst & _ & Ho & _)]; [congruence|].
  rewrite (dispatchEnded_silent w a nd) by done. cbn.
  repeat split; try done.
  - intros b Hb. by rewrite list_lookup_alter_ne.
  - intros nd0 [= <-]. rewrite list_lookup_alter_eq, Hnd. cbn.
    eexists. split; [done|]. by right.
Qed.

(** X5. The pipeline fails in three ways only: no base64 text, [atob]
    rejecting the text, or an odd number of decoded bytes; the encoder
    never makes it fail. *)
Theorem pipeline_failures (base64Audio : option string) (e : thrown) :
  wavOfResponse base64Audio = Throw e →
  ((base64Audio = None ∨ base64Audio = Some EmptyString) ∧ e = noAudioData) ∨
  (∃ base64, base64Audio = Some base64 ∧ atob base64 = Throw e) ∨
  (∃ base64 bin, base64Audio = Some base64 ∧ atob base64 = Ok bin ∧
     Nat.Odd (String.length bin) ∧ e = notAMultiple).
Proof.
  intros E. destruct base64Audio as [[|c rest]|].
  - left. cbn in E. injection E as <-. split; [by right|done].
  - right. set (base64 := String c rest) in *.
    rewrite wavOfResponse_nonempty in E by done.
    pose proof (decode_bytes base64) as D.
    destruct (atob base64) as [bin|e0] eqn:Ea.
    + right. destruct D as (bytes & Hd & _ & Hlen & _).
      rewrite Hd in E. cbn [mbind result_bind] in E.
      unfold Int16Array in E.
      destruct (Nat.eqb_spec (length bytes `mod` 2) 0) as [Hev|Hodd].
      * cbn [mbind result_bind] in E. by rewrite pcmToWavBlob_layout in E.
      * injection E as <-. exists base64, bin. repeat split; try done.
        rewrite <- Hlen. exists (length bytes `div` 2)%nat.
        pose proof (Nat.div_mod_eq (length bytes) 2).
        pose proof (Nat.mod_upper_bound (length bytes) 2). lia.
    + left. rewrite D in E. injection E as <-. by exists base64.
  - left. cbn in E. injection E as <-. split; [by left|done].
Qed.

End Races.

Lemma stale_ended_ignored_witness :
  isPlaying (dispatchEnded 0 retunedWorld) = true ∧
  sourceNodeRef (dispatchEnded 0 retunedWorld) = Some 1%nat.
Proof.
  assert (reachable retunedWorld) as Hreach.
  { exists (sampleRun ++ retuneRun). rewrite run_app, playing_run.
    apply retuned_run. }
  destruct (stale_ended_ignored retunedWorld 0 Hreach) as (Hp & Hr & _).
  { discriminate. }
  split; [rewrite Hp|rewrite Hr]; reflexivity.
Defined.

Lemma pipeline_failures_witness :
  ∃ bin, forgivingBase64 "AAAA" = Ok bin ∧ Nat.Odd (String.length bin).
Proof.
  destruct (@pipeline_failures referencePlatform (Some "AAAA"%string)
              notAMultiple eq_refl)
    as [([E|E] & _)|[(base64 & E & Ea)|(base64 & bin & E & Ea & Hodd & _)]];
    try discriminate E.
  - injection E as <-. discriminate Ea.
  - injection E as <-. exists bin. split; [exact Ea|exact Hodd].
Defined.
